(** * pkg/server/client.go: the client side of the per-stage server

    [Connect] finds the server registered for a (config path, stage) pair,
    starts one when none is registered, attaches to its [/stream] endpoint
    and hands every decoded event to the caller's [OnEvent].

    The function talks to its environment all the time (state files, a child
    process, a timer, HTTP, a line scanner, the callback) and may loop or
    recurse without bound, so it is embedded as an interaction tree: every
    call that leaves the function is an event of [connectE], answered by the
    environment.  Properties are stated on the traces of that tree. *)

From Stdlib Require Import List String Ascii Strings.Byte ZArith Lia Bool.
From Stdlib Require Import Morphisms Setoid.
From ITree Require Import ITree ITreeFacts Interp.Traces Interp.RecursionFacts.
From Paco Require Import paco.
Import ListNotations.
Import ITreeNotations.
Local Open Scope itree_scope.
Local Open Scope string_scope.
Local Open Scope list_scope.

Set Implicit Arguments.

(** ** Data *)

(** Go's [error] values that the function can hand back.  A nil error is
    [None : option error]. *)
Inductive error : Type :=
| bufio_ErrTooLong                      (* bufio.Scanner: token too long *)
| context_Canceled                      (* ctx.Err() once ctx is cancelled *)
| exec_ExitError (code : Z)             (* cmd.Wait(): non-zero exit status *)
| errors_New (msg : string).            (* any other failure *)

(** [context.Context]: the cancellation token. *)
Inductive context_Context : Type :=
| context_WithCancel (id : nat).

(** [ConnectInput].  The [OnEvent] field is a callback; calling it is the
    event [input_OnEvent] below. *)
Record ConnectInput : Type := {
  CfgPath : string;
  Stage : string
}.

(** [*os.File] values the child inherits. *)
Inductive os_File : Type := os_Stdout | os_Stderr.

(** The fields of [exec.Cmd] that [Connect] sets. *)
Record exec_Cmd : Type := {
  Path : string;
  Args : list string;
  Env : list string;
  Stdout : option os_File;
  Stderr : option os_File
}.

(** [exec.Command(name)] *)
Definition exec_Command (name : string) : exec_Cmd :=
  {| Path := name; Args := [name]; Env := []; Stdout := None; Stderr := None |}.

(** [resp.Body] of an [*http.Response]: the open connection. *)
Inductive io_ReadCloser : Type :=
| http_body (conn : nat).

Record http_Response : Type := {
  Body : io_ReadCloser
}.

(** [contextreader.New(ctx, r)]: a reader bound to a token. *)
Record contextreader_Reader : Type := contextreader_New {
  rd_ctx : context_Context;
  rd_src : io_ReadCloser
}.

(** [bufio.Scanner]: the reader it scans and its buffer configuration. *)
Record bufio_Scanner : Type := {
  sc_r : contextreader_Reader;
  sc_bufcap : Z;
  sc_maxTokenSize : Z
}.

Definition bufio_MaxScanTokenSize : Z := 64 * 1024.

(** [bufio.NewScanner(r)] *)
Definition bufio_NewScanner (r : contextreader_Reader) : bufio_Scanner :=
  {| sc_r := r; sc_bufcap := 0; sc_maxTokenSize := bufio_MaxScanTokenSize |}.

(** [scanner.Buffer(make([]byte, n), max)] *)
Definition Scanner_Buffer (s : bufio_Scanner) (n max : Z) : bufio_Scanner :=
  {| sc_r := sc_r s; sc_bufcap := n; sc_maxTokenSize := max |}.

(** What the [select] of lines 54-59 receives: the result of [cmd.Wait()]
    sent on [cmdExited] by the goroutine of lines 43-45, or the tick of
    [time.After]. *)
Inductive select_recv : Type :=
| recv_cmdExited (err : option error)
| recv_After.

(** [time.Duration] in nanoseconds *)
Definition time_Millisecond : Z := 1000000.

(** ** The line scanner

    [bufio.Scanner] is part of Go's standard library.  With the default split
    function [ScanLines], which is the one in use here, [Scan] hands out the
    input line by line: a line ends at a newline, a carriage return before
    the newline is dropped, and what is left when the reader ends is a last
    line.  A line has to fit the buffer, which grows up to the larger of the
    size given to [Buffer] and the capacity of the slice given to it; when
    the buffer is full and no line ends in it, [Scan] gives up with
    [ErrTooLong].  When the reader ends, whether at [io.EOF] or with an
    error, [Scan] hands out what is buffered and then stops; [Err] is nil
    after [io.EOF] and the error otherwise.

    The state below is what is left of the input; how it arrives in pieces
    is left out, it does not change the lines.  There is one place where it
    matters: a last line without a newline that is exactly as long as the
    buffer may get.  [Scan] hands it out when the reader reports its end
    together with the last bytes, and gives up with [ErrTooLong] when the
    reader reports its end in a read of its own; the state below has the
    second.  The facts below stay clear of that length: a line that fits is
    shorter, a line that is too long is longer. *)

(** How the reader ends: with [io.EOF], or with another error. *)
Inductive stream_end : Type :=
| io_EOF
| io_err (e : error).

(** What a reader delivers until it ends. *)
Record stream : Type := {
  st_data : list byte;
  st_end : stream_end
}.

Record scan_state : Type := {
  ss_rest : list byte;                    (* input not handed out yet *)
  ss_end : stream_end;
  ss_token : list byte;                   (* what [Bytes] returns *)
  ss_stop : option (option error)         (* [Some err] once [Scan] said no *)
}.

Definition scan_init (s : stream) : scan_state :=
  {| ss_rest := st_data s; ss_end := st_end s; ss_token := []; ss_stop := None |}.

Definition scan_token (s : scan_state) (tok rest : list byte) : scan_state :=
  {| ss_rest := rest; ss_end := ss_end s; ss_token := tok; ss_stop := None |}.

Definition scan_stop (s : scan_state) (err : option error) : scan_state :=
  {| ss_rest := ss_rest s; ss_end := ss_end s; ss_token := [];
     ss_stop := Some err |}.

(** The first line of [data] and what comes after its newline. *)
Fixpoint split_line (data : list byte) : option (list byte * list byte) :=
  match data with
  | [] => None
  | b :: data' =>
    if Byte.eqb b x0a then Some ([], data')
    else match split_line data' with
         | Some (line, rest) => Some (b :: line, rest)
         | None => None
         end
  end.

(** [dropCR] *)
Definition dropCR (data : list byte) : list byte :=
  match rev data with
  | b :: r => if Byte.eqb b x0d then rev r else data
  | [] => data
  end.

(** The size a line with its newline may not exceed. *)
Definition scan_limit (sc : bufio_Scanner) : Z :=
  Z.max (sc_maxTokenSize sc) (sc_bufcap sc).

Definition end_error (e : stream_end) : option error :=
  match e with
  | io_EOF => None
  | io_err err => Some err
  end.

(** [scanner.Scan()] *)
Definition bufio_Scan (sc : bufio_Scanner) (s : scan_state) : bool * scan_state :=
  match ss_stop s with
  | Some _ => (false, s)
  | None =>
    match split_line (ss_rest s) with
    | Some (line, rest) =>
      if (Z.of_nat (List.length line) <? scan_limit sc)%Z
      then (true, scan_token s (dropCR line) rest)
      else (false, scan_stop s (Some bufio_ErrTooLong))
    | None =>
      if (scan_limit sc <=? Z.of_nat (List.length (ss_rest s)))%Z
      then (false, scan_stop s (Some bufio_ErrTooLong))
      else
        match ss_rest s with
        | [] => (false, scan_stop s (end_error (ss_end s)))
        | _ :: _ => (true, scan_token s (dropCR (ss_rest s)) [])
        end
    end
  end.

(** [scanner.Bytes()] *)
Definition bufio_Bytes (s : scan_state) : list byte := ss_token s.

(** [scanner.Err()] *)
Definition bufio_Err (s : scan_state) : option error :=
  match ss_stop s with
  | Some err => err
  | None => None
  end.

(** Lines, each followed by its newline. *)
Definition join_lines (lines : list (list byte)) : list byte :=
  flat_map (fun line => line ++ [x0a]) lines.

(** ** Values that [Connect] builds *)

(** Lines 34-38: the command that starts the server. *)
Definition serverCmd (input : ConnectInput) (currentExecutable : string)
           (environ : list string) : exec_Cmd :=
  let cmd := exec_Command currentExecutable in
  {| Path := Path cmd;
     Args := Args cmd ++ [("--stage=" ++ Stage input)%string; "server"];
     Env := environ;
     Stdout := Some os_Stdout;
     Stderr := Some os_Stderr |}.

(** Line 67: where the events are streamed. *)
Definition streamURL (addr : string) : string :=
  ("http://" ++ addr ++ "/stream")%string.

(** Lines 73-75: the scanner on the body of the response, bound to the
    token. *)
Definition streamScanner (ctx : context_Context) (resp : http_Response)
  : bufio_Scanner :=
  Scanner_Buffer (bufio_NewScanner (contextreader_New ctx (Body resp)))
                 4096 (1024 * 1024 * 100).

(** ** Concrete data

    Inputs on which the definitions are evaluated further down. *)

Definition bytes (s : string) : list byte := list_byte_of_string s.

Definition small_scanner : bufio_Scanner :=
  Scanner_Buffer
    (bufio_NewScanner (contextreader_New (context_WithCancel 0) (http_body 0)))
    4 8.

(** A stand-in for [json.Unmarshal] into [Event]: a line decodes when it is
    enclosed in braces, and the event is then the text of the line. *)
Definition braces_Unmarshal (data : list byte) (v : list byte)
  : list byte * option error :=
  match data, rev data with
  | b :: _, e :: _ =>
    if Byte.eqb b x7b && Byte.eqb e x7d then (data, None)
    else (v, Some (errors_New "invalid character"))
  | _, _ => (v, Some (errors_New "unexpected end of JSON input"))
  end.

Definition demo_ctx : context_Context := context_WithCancel 1.

Definition demo_input : ConnectInput :=
  {| CfgPath := "/app/sst.config.ts"; Stage := "dev" |}.

Definition demo_addr : string := "127.0.0.1:13557".

Definition demo_resp : http_Response := {| Body := http_body 1 |}.

Definition demo_scanner : bufio_Scanner := streamScanner demo_ctx demo_resp.

Definition demo_exe : string := "/usr/local/bin/sst".

Definition demo_cmd : exec_Cmd := serverCmd demo_input demo_exe [].

(** A stream with a line that is cut off between two whole ones. *)
Definition demo_cut_off : stream :=
  {| st_data := join_lines [bytes "{1}"; bytes "{"; bytes "{2}"];
     st_end := io_EOF |}.

(** A stream that breaks off inside its second line, when the token is
    cancelled. *)
Definition demo_broken : stream :=
  {| st_data := join_lines [bytes "{1}"] ++ bytes "{2}";
     st_end := io_err context_Canceled |}.

(** A stream that the connection drops after its first line. *)
Definition demo_reset : stream :=
  {| st_data := join_lines [bytes "{1}"];
     st_end := io_err (errors_New "connection reset by peer") |}.

(** [l] doubled [k] times: a long line without writing it out. *)
Definition doubled (k : nat) (l : list byte) : list byte :=
  Nat.iter k (fun l' => l' ++ l') l.

(** A line of 2^27 bytes, which is more than 1024*1024*100. *)
Definition demo_long_line : list byte := doubled 27 [x61].

(** A stream with a line that fits, a line that does not, and a line after
    it. *)
Definition demo_too_long : stream :=
  {| st_data := join_lines [bytes "{1}"] ++ demo_long_line ++ x0a :: bytes "{2}";
     st_end := io_EOF |}.

(** The stream of the spec's scenario: two events, then the server closes
    the stream. *)
Definition demo_two_events : stream :=
  {| st_data := join_lines [bytes "{progress:10}"; bytes "{done}"];
     st_end := io_EOF |}.

Notation "e '|->' x" := (Traces.Event _ e x) (at level 60, no associativity).

(** ** Executions

    An execution of a function is seen from outside as the list of calls it
    made, each with the answer it got, and the value it returned if it has
    returned.  [run t l (Some r)]: [t] makes the calls [l] and returns [r];
    [run t l None]: [l] is how some execution of [t] begins. *)

Section Runs.

Context {E : Type -> Type}.

Fixpoint to_trace {R} (l : list (event E)) (o : option R) : @trace E R :=
  match l with
  | [] => match o with Some r => TRet r | None => TEnd end
  | Traces.Event _ e x :: l' => TEventResponse e x (to_trace l' o)
  end.

Definition run {R} (t : itree E R) (l : list (event E)) (o : option R) : Prop :=
  is_trace t (to_trace l o).

(** What [run] says at each kind of node. *)
Definition run_node {R} (ot : itree' E R) (l : list (event E)) (o : option R)
  : Prop :=
  match ot with
  | RetF r => l = [] /\ (o = None \/ o = Some r)
  | TauF t => run t l o
  | VisF e k =>
    (l = [] /\ o = None) \/
    exists x l', l = Traces.Event _ e x :: l' /\ run (k x) l' o
  end.

(** Every call of every execution of [t] is one that [P] allows. *)
Definition only {R} (P : event E -> Prop) (t : itree E R) : Prop :=
  forall l o, run t l o -> Forall P l.

(** [each_after P h l]: every call of [l] is one that [P] allows after the
    calls made before it; [h] are the calls made before [l], the latest
    first. *)
Fixpoint each_after (P : list (event E) -> event E -> Prop)
         (h l : list (event E)) : Prop :=
  match l with
  | [] => True
  | ev :: l' => P h ev /\ each_after P (ev :: h) l'
  end.

(** Every call of every execution of [t], started after the calls [h], is
    one that [P] allows after the calls before it. *)
Definition after {R} (h : list (event E))
           (P : list (event E) -> event E -> Prop) (t : itree E R) : Prop :=
  forall l o, run t l o -> each_after P h l.

End Runs.

Section Client.

(** [Event] is declared elsewhere in package [server]; [json.Unmarshal]
    fills a value of it from a line and reports whether that worked. *)
Variable Event : Type.
Variable Event_zero : Event.                                (* [Event{}] *)
Variable json_Unmarshal : list byte -> Event -> Event * option error.

(** ** The calls that leave [Connect] *)

Variant connectE : Type -> Type :=
| findExisting (cfgPath stage : string) : connectE (string * option error)
| cleanupExisting (cfgPath stage : string) : connectE unit
| slog_Info (msg : string) : connectE unit
| os_Executable : connectE (string * option error)
| os_Environ : connectE (list string)
| Cmd_Start (cmd : exec_Cmd) : connectE (option error)
| select_cmdExited_After (cmd : exec_Cmd) (d : Z) : connectE select_recv
| Process_Release (cmd : exec_Cmd) : connectE (option error)
| http_Get (url : string) : connectE (http_Response * option error)
| Body_Close (b : io_ReadCloser) : connectE unit
| Scanner_Scan (s : bufio_Scanner) : connectE bool
| Scanner_Bytes (s : bufio_Scanner) : connectE (list byte)
| Scanner_Err (s : bufio_Scanner) : connectE (option error)
| input_OnEvent (input : ConnectInput) (event : Event) : connectE unit.

(** ** The code *)

Section Code.

Context {F : Type -> Type} `{connectE -< F}.

(** The recursive call of line 70. *)
Variable self : context_Context -> ConnectInput -> itree F (option error).

(** Lines 48-60: the loop that waits for the started server.  It leaves with
    [inl err] where the function returns [err] (line 56) and with [inr addr]
    at the [break] of line 51. *)
Definition waitForServer (input : ConnectInput) (cmd : exec_Cmd)
  : itree F (option error + string) :=
  ITree.iter (fun _ : unit =>
    '(addr, _) <- trigger (findExisting (CfgPath input) (Stage input));;
    if negb (addr =? "") then Ret (inr (inr addr))
    else
      r <- trigger (select_cmdExited_After cmd (100 * time_Millisecond));;
      match r with
      | recv_cmdExited err => Ret (inr (inl err))
      | recv_After => Ret (inl tt)
      end) tt.

(** Lines 61-64: let go of the started process. *)
Definition release (cmd : exec_Cmd) (addr : string)
  : itree F (option error + string) :=
  err <- trigger (Process_Release cmd);;
  match err with
  | Some e => Ret (inl (Some e))
  | None => Ret (inr addr)
  end.

(** Lines 29-64: the branch taken when no server is registered.  [inl err]:
    the function returns [err]; [inr addr]: it goes on to line 67. *)
Definition startServer (input : ConnectInput) : itree F (option error + string) :=
  trigger (slog_Info "no existing server found, starting new one");;
  '(currentExecutable, err) <- trigger os_Executable;;
  match err with
  | Some e => Ret (inl (Some e))
  | None =>
    environ <- trigger os_Environ;;
    let cmd := serverCmd input currentExecutable environ in
    err <- trigger (Cmd_Start cmd);;
    match err with
    | Some e => Ret (inl (Some e))
    | None =>
      trigger (slog_Info "waiting for server to start");;
      r <- waitForServer input cmd;;
      match r with
      | inl err => Ret (inl err)
      | inr addr => release cmd addr
      end
    end
  end.

(** Lines 23-65: find the registered server or start one. *)
Definition findOrStart (input : ConnectInput) : itree F (option error + string) :=
  '(addr, err) <- trigger (findExisting (CfgPath input) (Stage input));;
  match err with
  | Some e => Ret (inl (Some e))
  | None => if addr =? "" then startServer input else Ret (inr addr)
  end.

(** Lines 77-85: the read loop. *)
Definition readEvents (input : ConnectInput) (scanner : bufio_Scanner)
  : itree F unit :=
  ITree.iter (fun _ : unit =>
    more <- trigger (Scanner_Scan scanner);;
    if (more : bool) then
      line <- trigger (Scanner_Bytes scanner);;
      let '(event, err) := json_Unmarshal line Event_zero in
      match err with
      | Some _ => Ret (inl tt)
      | None => trigger (input_OnEvent input event);; Ret (inl tt)
      end
    else Ret (inr tt)) tt.

(** Lines 67-87: attach to the server at [addr]. *)
Definition attach (ctx : context_Context) (input : ConnectInput) (addr : string)
  : itree F (option error) :=
  '(resp, err) <- trigger (http_Get ("http://" ++ addr ++ "/stream")%string);;
  match err with
  | Some _ =>
    trigger (cleanupExisting (CfgPath input) (Stage input));;
    self ctx input
  | None =>
    let stream := contextreader_New ctx (Body resp) in
    let scanner := bufio_NewScanner stream in
    let scanner := Scanner_Buffer scanner 4096 (1024 * 1024 * 100) in
    readEvents input scanner;;
    ret <- trigger (Scanner_Err scanner);;
    trigger (Body_Close (Body resp));;              (* deferred at line 72 *)
    Ret ret
  end.

(** Lines 22-88. *)
Definition Connect_body (ctx : context_Context) (input : ConnectInput)
  : itree F (option error) :=
  r <- findOrStart input;;
  match r with
  | inl err => Ret err
  | inr addr => attach ctx input addr
  end.

End Code.

(** [Connect] calls itself at line 70. *)
Definition Connect (ctx : context_Context) (input : ConnectInput)
  : itree connectE (option error) :=
  rec (fun a : context_Context * ConnectInput =>
         Connect_body (fun c i => call (c, i)) (fst a) (snd a))
      (ctx, input).


(** [Connect] as [rec] sees it. *)
Definition Connect_rec (a : context_Context * ConnectInput)
  : itree (callE (context_Context * ConnectInput) (option error) +' connectE)
          (option error) :=
  Connect_body (fun c i => call (c, i)) (fst a) (snd a).

(** ** Words for executions *)

Section Executions.

Variable ctx : context_Context.
Variable input : ConnectInput.

(** The lookup of the registered address, with its answer. *)
Definition lookup (r : string * option error) : event connectE :=
  findExisting (CfgPath input) (Stage input) |-> r.

(** The [select] of lines 54-59, with what it received. *)
Definition selected (cmd : exec_Cmd) (r : select_recv) : event connectE :=
  select_cmdExited_After cmd (100 * time_Millisecond) |-> r.

(** The calls up to the loop of line 48, when nothing is registered and the
    server process starts. *)
Definition spawned (exe : string) (env : list string) : list (event connectE) :=
  [ lookup ("", None);
    slog_Info "no existing server found, starting new one" |-> tt;
    os_Executable |-> (exe, None);
    os_Environ |-> env;
    Cmd_Start (serverCmd input exe env) |-> None;
    slog_Info "waiting for server to start" |-> tt ].

(** Turns of the loop in which nothing is registered yet and the timer
    fires; [errs] are the errors of the lookups. *)
Definition polled (cmd : exec_Cmd) (errs : list (option error))
  : list (event connectE) :=
  flat_map (fun e => [lookup ("", e); selected cmd recv_After]) errs.

(** What follows the loop of line 48. *)
Definition afterWait (cmd : exec_Cmd) (r : option error + string)
  : itree connectE (option error) :=
  match r with
  | inl err => Ret err
  | inr addr =>
    r' <- release cmd addr;;
    match r' with
    | inl err => Ret err
    | inr addr => attach Connect ctx input addr
    end
  end.

(** Lines 73-87, once the connection is made. *)
Definition readStream (resp : http_Response) : itree connectE (option error) :=
  readEvents input (streamScanner ctx resp);;
  ret <- trigger (Scanner_Err (streamScanner ctx resp));;
  trigger (Body_Close (Body resp));;
  Ret ret.

(** What one scanned line adds to an execution: the handler is called when
    the line decodes, and not otherwise. *)
Definition deliver (line : list byte) : list (event connectE) :=
  let '(event, err) := json_Unmarshal line Event_zero in
  match err with
  | Some _ => []
  | None => [input_OnEvent input event |-> tt]
  end.

Definition scanned (sc : bufio_Scanner) (line : list byte)
  : list (event connectE) :=
  (Scanner_Scan sc |-> true) :: (Scanner_Bytes sc |-> line) :: deliver line.

(** ** Executions against a given stream

    [follows s l]: in [l], the scanner answers as [bufio.Scanner] does from
    state [s]. *)
Fixpoint follows (s : scan_state) (l : list (event connectE)) : Prop :=
  match l with
  | [] => True
  | Traces.Event _ e x :: l' =>
    match e in connectE X return X -> Prop with
    | Scanner_Scan sc => fun more =>
        more = fst (bufio_Scan sc s) /\ follows (snd (bufio_Scan sc s)) l'
    | Scanner_Bytes _ => fun line => line = bufio_Bytes s /\ follows s l'
    | Scanner_Err _ => fun err => err = bufio_Err s /\ follows s l'
    | _ => fun _ => follows s l'
    end x
  end.

(** A line that [Scan] accepts. *)
Definition fits (sc : bufio_Scanner) (line : list byte) : Prop :=
  ~ In x0a line /\ (Z.of_nat (List.length line) < scan_limit sc)%Z.

(** The calls of the read loop over lines that fit. *)
Definition scanned_lines (sc : bufio_Scanner) (lines : list (list byte))
  : list (event connectE) :=
  flat_map (fun line => scanned sc (dropCR line)) lines.

(** A failed attempt: the beginning of an execution up to a GET that failed,
    and the removal of the registration that follows it. *)
Definition attempt (pre : list (event connectE)) (url : string)
           (resp : http_Response) (e : error) : list (event connectE) :=
  pre ++ [http_Get url |-> (resp, Some e);
          cleanupExisting (CfgPath input) (Stage input) |-> tt].

Definition failed (att : list (event connectE)) : Prop :=
  exists pre url resp e,
    run (Connect ctx input) (pre ++ [http_Get url |-> (resp, Some e)]) None /\
    att = attempt pre url resp e.

(** Lines 86-88: the result and the deferred close. *)
Definition finish (resp : http_Response) : itree connectE (option error) :=
  ret <- trigger (Scanner_Err (streamScanner ctx resp));;
  trigger (Body_Close (Body resp));;
  Ret ret.

(** The calls that end an execution of [readStream]: [Scan] says no, [Err]
    reports [err], the body is closed. *)
Definition finished (resp : http_Response) (err : option error)
  : list (event connectE) :=
  [ Scanner_Scan (streamScanner ctx resp) |-> false;
    Scanner_Err (streamScanner ctx resp) |-> err;
    Body_Close (Body resp) |-> tt ].

(** The calls of the read loop and of its end, and no other. *)
Definition reading (ev : event connectE) : Prop :=
  match ev with
  | Traces.Event _ e _ =>
    match e with
    | Scanner_Scan _ | Scanner_Bytes _ | Scanner_Err _
    | input_OnEvent _ _ | Body_Close _ => True
    | _ => False
    end
  end.

(** The events handed to [OnEvent], in order. *)
Fixpoint handled (l : list (event connectE)) : list Event :=
  match l with
  | [] => []
  | Traces.Event _ e _ :: l' =>
    match e with
    | input_OnEvent _ event => event :: handled l'
    | _ => handled l'
    end
  end.

(** The events that lines decode to: a line that does not decode gives
    none. *)
Definition decoded (lines : list (list byte)) : list Event :=
  flat_map (fun line =>
              let '(event, err) := json_Unmarshal (dropCR line) Event_zero in
              match err with
              | Some _ => []
              | None => [event]
              end) lines.

(** The last line of the input, when the input does not end with a
    newline. *)
Definition final (last : list byte) : list (list byte) :=
  match last with
  | [] => []
  | _ :: _ => [last]
  end.

(** The calls for lines that decode to [events]. *)
Definition delivered (sc : bufio_Scanner) (lines : list (list byte))
           (events : list Event) : list (event connectE) :=
  flat_map (fun le : list byte * Event =>
              [ Scanner_Scan sc |-> true;
                Scanner_Bytes sc |-> dropCR (fst le);
                input_OnEvent input (snd le) |-> tt ])
           (combine lines events).

(** The calls of the find-or-start phase, and no other. *)
Definition launching (ev : event connectE) : Prop :=
  match ev with
  | Traces.Event _ e _ =>
    match e with
    | findExisting _ _ | slog_Info _ | os_Executable | os_Environ
    | Cmd_Start _ | select_cmdExited_After _ _ | Process_Release _ => True
    | _ => False
    end
  end.

(** The URL and the answer of a GET. *)
Definition got (ev : event connectE)
  : option (string * (http_Response * option error)) :=
  match ev with
  | Traces.Event _ e x =>
    match e in connectE X return X -> _ with
    | http_Get url => fun ans => Some (url, ans)
    | _ => fun _ => None
    end x
  end.



(** ** Words for whole executions *)

(** How the find-or-start phase gets to an address: the first lookup finds
    it, or the server is started and, after the turns [errs] of the loop, a
    lookup finds it and the process is released. *)
Definition reached (l : list (event connectE)) (addr : string) : Prop :=
  addr <> "" /\
  (l = [lookup (addr, None)] \/
   exists exe env errs err,
     l = spawned exe env ++ polled (serverCmd input exe env) errs ++
         [lookup (addr, err); Process_Release (serverCmd input exe env) |-> None]).

(** How [Connect] returns [r] without a GET: the first lookup fails (line
    25), [os.Executable] fails (line 32), the process does not start (line
    40), the process exits before anything is registered (line 56), the
    release fails (line 63). *)
Definition gave_up (l : list (event connectE)) (r : option error) : Prop :=
  (exists addr e, l = [lookup (addr, Some e)] /\ r = Some e) \/
  (exists exe e,
      l = [ lookup ("", None);
            slog_Info "no existing server found, starting new one" |-> tt;
            os_Executable |-> (exe, Some e) ] /\
      r = Some e) \/
  (exists exe env e,
      l = [ lookup ("", None);
            slog_Info "no existing server found, starting new one" |-> tt;
            os_Executable |-> (exe, None);
            os_Environ |-> env;
            Cmd_Start (serverCmd input exe env) |-> Some e ] /\
      r = Some e) \/
  (exists exe env errs err,
      l = spawned exe env ++ polled (serverCmd input exe env) errs ++
          [ lookup ("", err);
            selected (serverCmd input exe env) (recv_cmdExited r) ]) \/
  (exists exe env errs addr err e,
      addr <> "" /\
      l = spawned exe env ++ polled (serverCmd input exe env) errs ++
          [ lookup (addr, err);
            Process_Release (serverCmd input exe env) |-> Some e ] /\
      r = Some e).

(** What has happened just before a call: [caused h ev] says, for each kind
    of call [ev], which calls [h] (the latest first) it comes after and how
    its arguments come from their answers. *)
Definition caused (h : list (event connectE)) (ev : event connectE) : Prop :=
  match ev with
  | Traces.Event _ e _ =>
    match e with
    | findExisting cfgPath stage =>
      cfgPath = CfgPath input /\ stage = Stage input
    | cleanupExisting cfgPath stage =>
      cfgPath = CfgPath input /\ stage = Stage input /\
      exists url resp err h', h = (http_Get url |-> (resp, Some err)) :: h'
    | slog_Info msg =>
      (msg = "no existing server found, starting new one" /\
       exists h', h = lookup ("", None) :: h') \/
      (msg = "waiting for server to start" /\
       exists cmd h', h = (Cmd_Start cmd |-> None) :: h')
    | os_Executable =>
      exists h',
        h = (slog_Info "no existing server found, starting new one" |-> tt) ::
            lookup ("", None) :: h'
    | os_Environ => exists exe h', h = (os_Executable |-> (exe, None)) :: h'
    | Cmd_Start cmd =>
      exists exe env h',
        h = (os_Environ |-> env) :: (os_Executable |-> (exe, None)) :: h' /\
        cmd = serverCmd input exe env
    | select_cmdExited_After cmd d =>
      d = (100 * time_Millisecond)%Z /\
      exists err h', h = lookup ("", err) :: h'
    | Process_Release cmd =>
      exists addr err h', addr <> "" /\ h = lookup (addr, err) :: h'
    | http_Get url =>
      exists addr,
        url = streamURL addr /\ addr <> "" /\
        ((exists h', h = lookup (addr, None) :: h') \/
         (exists cmd err h',
             h = (Process_Release cmd |-> None) :: lookup (addr, err) :: h'))
    | Scanner_Scan sc => True
    | Scanner_Bytes sc => exists h', h = (Scanner_Scan sc |-> true) :: h'
    | Scanner_Err sc => exists h', h = (Scanner_Scan sc |-> false) :: h'
    | Body_Close b =>
      exists sc err h', h = (Scanner_Err sc |-> err) :: h' /\ b = rd_src (sc_r sc)
    | input_OnEvent i event =>
      i = input /\
      exists sc line h',
        h = (Scanner_Bytes sc |-> line) :: h' /\
        json_Unmarshal line Event_zero = (event, None)
    end
  end.

(** The calls that start a process, and the calls that remove the
    registration. *)
Definition is_start (ev : event connectE) : bool :=
  match ev with
  | Traces.Event _ e _ => match e with Cmd_Start _ => true | _ => false end
  end.

Definition is_removal (ev : event connectE) : bool :=
  match ev with
  | Traces.Event _ e _ =>
    match e with cleanupExisting _ _ => true | _ => false end
  end.

Definition count (f : event connectE -> bool) (l : list (event connectE)) : nat :=
  List.length (filter f l).

(** The lines that [Bytes] handed out, in order. *)
Fixpoint lines_read (l : list (event connectE)) : list (list byte) :=
  match l with
  | [] => []
  | Traces.Event _ e x :: l' =>
    match e in connectE X return X -> list (list byte) with
    | Scanner_Bytes _ => fun line => line :: lines_read l'
    | _ => fun _ => lines_read l'
    end x
  end.

(** The event that a line decodes to, when it does (lines 79-83). *)
Definition decodes (line : list byte) : list Event :=
  let '(event, err) := json_Unmarshal line Event_zero in
  match err with
  | Some _ => []
  | None => [event]
  end.

(** * Facts *)

(** ** The line scanner *)

Lemma join_lines_cons line lines rest :
  join_lines (line :: lines) ++ rest = line ++ x0a :: join_lines lines ++ rest.
Proof. unfold join_lines. cbn. rewrite <- !app_assoc. reflexivity. Qed.

Lemma split_line_no_newline data :
  ~ In x0a data -> split_line data = None.
Proof.
  induction data as [|b data IH]; cbn; [reflexivity|]. intros Hn.
  destruct (Byte.eqb b x0a) eqn:Hb.
  - apply Byte.byte_dec_bl in Hb. subst. exfalso. apply Hn. left. reflexivity.
  - rewrite IH; [reflexivity|]. intros Hin. apply Hn. right. exact Hin.
Qed.

Lemma split_line_newline line rest :
  ~ In x0a line -> split_line (line ++ x0a :: rest) = Some (line, rest).
Proof.
  induction line as [|b line IH]; cbn; [reflexivity|]. intros Hn.
  destruct (Byte.eqb b x0a) eqn:Hb.
  - apply Byte.byte_dec_bl in Hb. subst. exfalso. apply Hn. left. reflexivity.
  - rewrite IH; [reflexivity|]. intros Hin. apply Hn. right. exact Hin.
Qed.

(** The first newline of [long ++ tail] is not inside a [long] without one. *)
Lemma split_line_after long tail line rest :
  ~ In x0a long -> split_line (long ++ tail) = Some (line, rest) ->
  (List.length long <= List.length line)%nat.
Proof.
  revert line. induction long as [|b long IH]; cbn; intros line Hn H; [lia|].
  destruct (Byte.eqb b x0a) eqn:Hb.
  - apply Byte.byte_dec_bl in Hb. subst. exfalso. apply Hn. left. reflexivity.
  - destruct (split_line (long ++ tail)) as [[line' rest']|] eqn:Hs;
      [|discriminate].
    injection H as <- <-. cbn.
    assert (List.length long <= List.length line')%nat; [|lia].
    apply IH; [|reflexivity]. intros Hin. apply Hn. right. exact Hin.
Qed.

(** [Scan] does not look at the line handed out before. *)
Lemma bufio_Scan_token sc s tok tok' rest :
  bufio_Scan sc (scan_token s tok rest) = bufio_Scan sc (scan_token s tok' rest).
Proof.
  unfold bufio_Scan. cbn.
  destruct (split_line rest) as [[line rest']|].
  - destruct (Z.of_nat (List.length line) <? scan_limit sc)%Z; reflexivity.
  - destruct (scan_limit sc <=? Z.of_nat (List.length rest))%Z; [reflexivity|].
    destruct rest; reflexivity.
Qed.

Section ScanFacts.

Variable sc : bufio_Scanner.
Variable s : scan_state.
Hypothesis scanning : ss_stop s = None.

Lemma Scan_line line rest :
  ss_rest s = line ++ x0a :: rest ->
  ~ In x0a line ->
  (Z.of_nat (List.length line) < scan_limit sc)%Z ->
  bufio_Scan sc s = (true, scan_token s (dropCR line) rest).
Proof.
  intros Hr Hn Hlen. unfold bufio_Scan. rewrite scanning, Hr.
  rewrite split_line_newline by assumption.
  apply Z.ltb_lt in Hlen. rewrite Hlen. reflexivity.
Qed.

Lemma Scan_last line :
  ss_rest s = line ->
  line <> [] ->
  ~ In x0a line ->
  (Z.of_nat (List.length line) < scan_limit sc)%Z ->
  bufio_Scan sc s = (true, scan_token s (dropCR line) []).
Proof.
  intros Hr Hne Hn Hlen. unfold bufio_Scan. rewrite scanning, Hr.
  rewrite split_line_no_newline by assumption.
  assert (Hle : (scan_limit sc <=? Z.of_nat (List.length line))%Z = false)
    by (apply Z.leb_gt; exact Hlen).
  rewrite Hle. destruct line; [contradiction | reflexivity].
Qed.

Lemma Scan_end :
  ss_rest s = [] ->
  (0 < scan_limit sc)%Z ->
  bufio_Scan sc s = (false, scan_stop s (end_error (ss_end s))).
Proof.
  intros Hr Hlim. unfold bufio_Scan. rewrite scanning, Hr. cbn.
  assert (Hle : (scan_limit sc <=? 0)%Z = false) by (apply Z.leb_gt; exact Hlim).
  rewrite Hle. reflexivity.
Qed.

Lemma Scan_long long tail :
  ss_rest s = long ++ tail ->
  ~ In x0a long ->
  (scan_limit sc < Z.of_nat (List.length long))%Z ->
  bufio_Scan sc s = (false, scan_stop s (Some bufio_ErrTooLong)).
Proof.
  intros Hr Hn Hlen. unfold bufio_Scan. rewrite scanning, Hr.
  destruct (split_line (long ++ tail)) as [[line rest]|] eqn:Hs.
  - apply split_line_after in Hs; [|assumption].
    assert (Hlt : (Z.of_nat (List.length line) <? scan_limit sc)%Z = false)
      by (apply Z.ltb_ge; lia).
    rewrite Hlt. reflexivity.
  - assert (Hle : (scan_limit sc <=? Z.of_nat (List.length (long ++ tail)))%Z = true).
    { apply Z.leb_le. rewrite List.length_app. lia. }
    rewrite Hle. reflexivity.
Qed.

End ScanFacts.

(** ** Executions *)

Section RunFacts.

Context {E : Type -> Type}.

Lemma to_trace_TEnd R (l : list (event E)) (o : option R) :
  to_trace l o = TEnd -> l = [] /\ o = None.
Proof. destruct l as [|[X e x] l]; destruct o; cbn; intros; try discriminate; auto. Qed.

Lemma to_trace_TRet R (l : list (event E)) (o : option R) r :
  to_trace l o = TRet r -> l = [] /\ o = Some r.
Proof.
  destruct l as [|[X e x] l]; destruct o; cbn; intros H; try discriminate.
  injection H as ->. auto.
Qed.

Lemma to_trace_TEventEnd R l (o : option R) X (e : E X) :
  to_trace l o <> TEventEnd e.
Proof. destruct l as [|[X' e' x'] l]; destruct o; cbn; intros; discriminate. Qed.

Lemma to_trace_TEventResponse R l (o : option R) X (e : E X) x tr :
  to_trace l o = TEventResponse e x tr ->
  exists l', l = Traces.Event _ e x :: l' /\ tr = to_trace l' o.
Proof.
  destruct l as [|[X' e' x'] l]; [destruct o; discriminate|].
  cbn. intros H. apply eq_trace_inv in H. destruct H as (p & He & Hx & Htr).
  destruct p. cbn in He, Hx. subst. eauto.
Qed.

Lemma event_inj X (e : E X) (x x' : X) : (e |-> x) = (e |-> x') -> x = x'.
Proof.
  intros H. injection H as Hx. apply Eqdep.EqdepTheory.inj_pair2 in Hx.
  exact Hx.
Qed.

Lemma run_nil R (t : itree E R) : run t [] None.
Proof. constructor. Qed.

Lemma run_observe R (t : itree E R) l o :
  run t l o <-> run_node (observe t) l o.
Proof.
  unfold run, is_trace. split.
  - intros H. destruct (observe t) as [r|t'|X e k]; cbn.
    + remember (RetF r) as ot eqn:Hot. remember (to_trace l o) as tr eqn:Htr.
      destruct H; try discriminate.
      * symmetry in Htr. apply to_trace_TEnd in Htr. intuition.
      * injection Hot as ->.
        symmetry in Htr. apply to_trace_TRet in Htr. intuition.
    + apply is_traceF_tau. exact H.
    + remember (VisF e k) as ot eqn:Hot. remember (to_trace l o) as tr eqn:Htr.
      destruct H; try discriminate.
      * symmetry in Htr. apply to_trace_TEnd in Htr. intuition.
      * symmetry in Htr. apply to_trace_TEventEnd in Htr. contradiction.
      * symmetry in Htr. apply to_trace_TEventResponse in Htr.
        destruct Htr as (l' & -> & ->). inv_Vis. right. eauto.
  - destruct (observe t) as [r|t'|X e k]; cbn.
    + intros [-> [-> | ->]]; constructor.
    + intros H. apply is_traceF_tau in H. exact H.
    + intros [[-> ->] | (x & l' & -> & H)]; constructor. exact H.
Qed.

Lemma run_Ret R (r : R) l o :
  run (Ret r : itree E R) l o <-> l = [] /\ (o = None \/ o = Some r).
Proof. rewrite run_observe. reflexivity. Qed.

Lemma run_Vis R X (e : E X) (k : X -> itree E R) l o :
  run (Vis e k) l o <->
  (l = [] /\ o = None) \/
  exists x l', l = Traces.Event _ e x :: l' /\ run (k x) l' o.
Proof. rewrite run_observe. reflexivity. Qed.

(** Trees that differ by silent steps only have the same executions. *)
#[global] Instance run_eutt R :
  Proper (eutt eq ==> eq ==> eq ==> iff) (@run E R).
Proof.
  intros t1 t2 Ht l ? <- o ? <-. apply eutt_trace_eq in Ht.
  destruct Ht as [H12 H21]. split; [apply H12 | apply H21].
Qed.


Lemma run_bind_Some R S (t : itree E R) (k : R -> itree E S) l1 l2 x o :
  run t l1 (Some x) -> run (k x) l2 o -> run (ITree.bind t k) (l1 ++ l2) o.
Proof.
  unfold run, is_trace. intros H Hk.
  remember (observe t) as ot eqn:Hot. remember (to_trace l1 (Some x)) as tr eqn:Htr.
  revert t l1 Hot Htr. induction H; intros u l1 Hot Htr.
  - symmetry in Htr. apply to_trace_TEnd in Htr. destruct Htr; discriminate.
  - symmetry in Htr. apply to_trace_TRet in Htr. destruct Htr as [-> Hx].
    injection Hx as ->. rewrite observe_bind, <- Hot. exact Hk.
  - rewrite observe_bind, <- Hot. cbn. constructor. eapply IHis_traceF; eauto.
  - symmetry in Htr. apply to_trace_TEventEnd in Htr. contradiction.
  - symmetry in Htr. apply to_trace_TEventResponse in Htr.
    destruct Htr as (l' & -> & ->).
    rewrite observe_bind, <- Hot. cbn. constructor. eapply IHis_traceF; eauto.
Qed.

Lemma run_bind_inv R S (t : itree E R) (k : R -> itree E S) l o :
  run (ITree.bind t k) l o ->
  (o = None /\ run t l None) \/
  exists l1 l2 x, l = l1 ++ l2 /\ run t l1 (Some x) /\ run (k x) l2 o.
Proof.
  unfold run, is_trace. intros H.
  remember (observe (ITree.bind t k)) as ot eqn:Hot.
  remember (to_trace l o) as tr eqn:Htr.
  revert t l Hot Htr. induction H; intros u l Hot Htr.
  - symmetry in Htr. apply to_trace_TEnd in Htr. destruct Htr as [-> ->].
    left. split; [reflexivity | constructor].
  - symmetry in Htr. apply to_trace_TRet in Htr. destruct Htr as [-> ->].
    rewrite observe_bind in Hot. destruct (observe u) as [x|u'|X e ke] eqn:Hu;
      cbn in Hot; try discriminate.
    right. exists [], [], x. repeat split.
    + constructor.
    + cbn. rewrite <- Hot. constructor.
  - rewrite observe_bind in Hot. destruct (observe u) as [x|u'|X e ke] eqn:Hu;
      cbn in Hot; try discriminate.
    + right. exists [], l, x. repeat split.
      * constructor.
      * rewrite <- Hot, <- Htr. constructor. exact H.
    + injection Hot as ->.
      destruct (IHis_traceF u' l eq_refl Htr)
        as [[-> Hr] | (l1 & l2 & x & -> & H1 & H2)].
      * left. split; [reflexivity|]. constructor. exact Hr.
      * right. exists l1, l2, x. repeat split; auto. constructor. exact H1.
  - symmetry in Htr. apply to_trace_TEventEnd in Htr. contradiction.
  - symmetry in Htr. apply to_trace_TEventResponse in Htr.
    destruct Htr as (l' & -> & ->).
    rewrite observe_bind in Hot. destruct (observe u) as [y|u'|X' e' ke] eqn:Hu;
      cbn in Hot; try discriminate.
    + right. exists [], (Traces.Event _ e x :: l'), y. repeat split.
      * constructor.
      * rewrite <- Hot. constructor. exact H.
    + apply eq_inv_VisF_weak in Hot. destruct Hot as (p & He & Hk).
      destruct p. cbn in He, Hk. subst e' k0.
      destruct (IHis_traceF (ke x) l' eq_refl eq_refl)
        as [[-> Hr] | (l1 & l2 & y & -> & H1 & H2)].
      * left. split; [reflexivity|]. constructor. exact Hr.
      * right. exists (Traces.Event _ e x :: l1), l2, y. repeat split; auto.
        constructor. exact H1.
Qed.

(** A call followed by the rest of the function. *)
Lemma run_call R X (e : E X) (k : X -> itree E R) l o :
  run (ITree.bind (ITree.trigger e) k) l o <->
  (l = [] /\ o = None) \/
  exists x l', l = Traces.Event _ e x :: l' /\ run (k x) l' o.
Proof. rewrite bind_trigger. apply run_Vis. Qed.

(** One turn of a loop. *)
Lemma run_iter I R (body : I -> itree E (I + R)) i l o :
  run (ITree.iter body i) l o <->
  run (ITree.bind (body i) (fun lr =>
         match lr with
         | inl i' => ITree.iter body i'
         | inr r => Ret r
         end)) l o.
Proof.
  rewrite unfold_iter at 1.
  assert (Hk : ITree.bind (body i) (fun lr : I + R =>
                 match lr with
                 | inl i' => Tau (ITree.iter body i')
                 | inr r => Ret r
                 end)
             ≈ ITree.bind (body i) (fun lr : I + R =>
                 match lr with
                 | inl i' => ITree.iter body i'
                 | inr r => Ret r
                 end)).
  { apply eutt_eq_bind. intros [i'|r]; [apply tau_eutt | reflexivity]. }
  rewrite Hk. reflexivity.
Qed.

(** The answers decide the execution: once [t] has returned after [l1],
    every execution that agrees with [l1] is a part of it. *)
Lemma run_returned R (t : itree E R) l1 x :
  run t l1 (Some x) ->
  forall l2 o m1 m2,
    run t l2 o -> l1 ++ m1 = l2 ++ m2 ->
    (o = None /\ exists m, l1 = l2 ++ m) \/ (o = Some x /\ l2 = l1).
Proof.
  unfold run at 1. unfold is_trace. intros H.
  remember (observe t) as ot eqn:Hot.
  remember (to_trace l1 (Some x)) as tr eqn:Htr.
  revert t l1 Hot Htr. induction H; intros u l1 Hot Htr l2 o m1 m2 H2 Heq.
  - symmetry in Htr. apply to_trace_TEnd in Htr. destruct Htr; discriminate.
  - symmetry in Htr. apply to_trace_TRet in Htr. destruct Htr as [-> Hx].
    injection Hx as ->. apply run_observe in H2. rewrite <- Hot in H2.
    cbn in H2. destruct H2 as [-> [-> | ->]].
    + left. split; [reflexivity|]. exists []. reflexivity.
    + right. split; reflexivity.
  - apply run_observe in H2. rewrite <- Hot in H2. cbn in H2.
    eapply IHis_traceF; eauto.
  - symmetry in Htr. apply to_trace_TEventEnd in Htr. contradiction.
  - symmetry in Htr. apply to_trace_TEventResponse in Htr.
    destruct Htr as (l1' & -> & ->).
    apply run_observe in H2. rewrite <- Hot in H2. cbn in H2.
    destruct H2 as [[-> ->] | (x' & l2' & -> & H2)].
    + left. split; [reflexivity|]. eexists. reflexivity.
    + cbn in Heq. inversion Heq as [[Hx Hl]].
      apply Eqdep.EqdepTheory.inj_pair2 in Hx. subst x'.
      destruct (IHis_traceF (k x0) l1' eq_refl eq_refl l2' o m1 m2 H2 Hl)
        as [[-> (m & ->)] | [-> ->]].
      * left. split; [reflexivity|]. exists m. reflexivity.
      * right. split; reflexivity.
Qed.

(** After the first part of a sequence has returned, the rest runs. *)
Lemma run_bind_after R S (t : itree E R) (k : R -> itree E S) pre x l o :
  run t pre (Some x) ->
  run (ITree.bind t k) (pre ++ l) o <-> run (k x) l o.
Proof.
  intros Hpre. split.
  - intros H. apply run_bind_inv in H.
    destruct H as [[-> H] | (l1 & l2 & y & Heq & H1 & H2)].
    + destruct (run_returned Hpre l [] H) as [[_ (m & Hm)] | [Hn _]];
        [rewrite app_nil_r; reflexivity | | discriminate].
      assert (Hl : l = []).
      { apply (f_equal (@List.length _)) in Hm.
        rewrite !List.length_app in Hm. destruct l; [reflexivity|].
        cbn in Hm. lia. }
      subst l. apply run_nil.
    + destruct (run_returned Hpre l l2 H1 Heq) as [[Hn _] | [Hy ->]];
        [discriminate|].
      injection Hy as ->. apply app_inv_head in Heq. subst l2. exact H2.
  - intros H. eapply run_bind_Some; eassumption.
Qed.

(** The beginning of an execution is an execution. *)
Lemma run_prefix R (t : itree E R) l1 l2 o :
  run t (l1 ++ l2) o -> run t l1 None.
Proof.
  unfold run, is_trace. intros H.
  remember (observe t) as ot eqn:Hot.
  remember (to_trace (l1 ++ l2) o) as tr eqn:Htr.
  revert t l1 Hot Htr. induction H; intros u l1 Hot Htr.
  - symmetry in Htr. apply to_trace_TEnd in Htr. destruct Htr as [Hl _].
    apply app_eq_nil in Hl. destruct Hl as [-> _]. constructor.
  - symmetry in Htr. apply to_trace_TRet in Htr. destruct Htr as [Hl _].
    apply app_eq_nil in Hl. destruct Hl as [-> _]. constructor.
  - constructor. eapply IHis_traceF; eauto.
  - symmetry in Htr. apply to_trace_TEventEnd in Htr. contradiction.
  - symmetry in Htr. apply to_trace_TEventResponse in Htr.
    destruct Htr as (l' & Hl & ->). destruct l1 as [|ev l1]; [constructor|].
    cbn in Hl. injection Hl as -> <-. cbn. constructor.
    eapply IHis_traceF; eauto.
Qed.

Lemma only_Ret R (P : event E -> Prop) (r : R) : only P (Ret r : itree E R).
Proof. intros l o H. apply run_Ret in H. destruct H as [-> _]. constructor. Qed.

Lemma only_bind R S (P : event E -> Prop) (t : itree E R) (k : R -> itree E S) :
  only P t -> (forall x, only P (k x)) -> only P (ITree.bind t k).
Proof.
  intros Ht Hk l o H. apply run_bind_inv in H.
  destruct H as [[-> H] | (l1 & l2 & x & -> & H1 & H2)].
  - exact (Ht _ _ H).
  - apply Forall_app. split; [exact (Ht _ _ H1) | exact (Hk _ _ _ H2)].
Qed.

Lemma only_call R X (P : event E -> Prop) (e : E X) (k : X -> itree E R) :
  (forall x, P (e |-> x)) -> (forall x, only P (k x)) ->
  only P (ITree.bind (ITree.trigger e) k).
Proof.
  intros He Hk l o H. apply run_call in H.
  destruct H as [[-> _] | (x & l' & -> & H)]; [constructor|].
  constructor; [apply He | exact (Hk _ _ _ H)].
Qed.

(** A loop whose every turn makes a call. *)
Lemma only_iter I R (P : event E -> Prop) (body : I -> itree E (I + R)) :
  (forall i, only P (body i)) ->
  (forall i l i', run (body i) l (Some (inl i')) -> l <> []) ->
  forall i, only P (ITree.iter body i).
Proof.
  intros Hb Hprog i l. remember (List.length l) as n eqn:Hn. revert i l Hn.
  induction n as [n IH] using lt_wf_ind. intros i l Hn o H.
  apply run_iter in H. apply run_bind_inv in H.
  destruct H as [[-> H] | (l1 & l2 & [i'|r] & -> & H1 & H2)].
  - exact (Hb _ _ _ H).
  - apply Forall_app. split; [exact (Hb _ _ _ H1)|].
    apply (IH (List.length l2)) with (i := i') (o := o); [|reflexivity|exact H2].
    subst n. rewrite List.length_app.
    specialize (Hprog _ _ _ H1). destruct l1; [contradiction | cbn; lia].
  - apply Forall_app. split; [exact (Hb _ _ _ H1)|].
    apply run_Ret in H2. destruct H2 as [-> _]. constructor.
Qed.

Lemma each_after_app (P : list (event E) -> event E -> Prop) h l1 l2 :
  each_after P h (l1 ++ l2) <->
  each_after P h l1 /\ each_after P (rev l1 ++ h) l2.
Proof.
  revert h. induction l1 as [|ev l1 IH]; intros h; cbn [app each_after rev].
  - tauto.
  - rewrite IH, <- app_assoc. cbn [app]. tauto.
Qed.

(** The call at a place of an execution, and the calls before it. *)
Lemma each_after_at (P : list (event E) -> event E -> Prop) l1 ev l2 :
  each_after P [] (l1 ++ ev :: l2) -> P (rev l1) ev.
Proof.
  intros H. apply each_after_app in H. destruct H as [_ [H _]].
  rewrite app_nil_r in H. exact H.
Qed.

Lemma after_Ret R h (P : list (event E) -> event E -> Prop) (r : R) :
  after h P (Ret r : itree E R).
Proof. intros l o H. apply run_Ret in H. destruct H as [-> _]. exact I. Qed.

Lemma after_bind R S h (P : list (event E) -> event E -> Prop)
      (t : itree E R) (k : R -> itree E S) :
  after h P t ->
  (forall l x, run t l (Some x) -> after (rev l ++ h) P (k x)) ->
  after h P (ITree.bind t k).
Proof.
  intros Ht Hk l o H. apply run_bind_inv in H.
  destruct H as [[-> H] | (l1 & l2 & x & -> & H1 & H2)].
  - exact (Ht _ _ H).
  - apply each_after_app. split; [exact (Ht _ _ H1) | exact (Hk _ _ H1 _ _ H2)].
Qed.

Lemma after_call R X h (P : list (event E) -> event E -> Prop) (e : E X)
      (k : X -> itree E R) :
  (forall x, P h (e |-> x)) ->
  (forall x, after ((e |-> x) :: h) P (k x)) ->
  after h P (ITree.bind (ITree.trigger e) k).
Proof.
  intros He Hk l o H. apply run_call in H.
  destruct H as [[-> _] | (x & l' & -> & H)]; [exact I|].
  split; [apply He | exact (Hk _ _ _ H)].
Qed.

(** A loop whose every turn makes a call. *)
Lemma after_iter I R (P : list (event E) -> event E -> Prop)
      (body : I -> itree E (I + R)) :
  (forall h i, after h P (body i)) ->
  (forall i l i', run (body i) l (Some (inl i')) -> l <> []) ->
  forall h i, after h P (ITree.iter body i).
Proof.
  intros Hb Hprog h i l. remember (List.length l) as n eqn:Hn.
  revert h i l Hn.
  induction n as [n IH] using lt_wf_ind. intros h i l Hn o H.
  apply run_iter in H. apply run_bind_inv in H.
  destruct H as [[-> H] | (l1 & l2 & [i'|r] & -> & H1 & H2)].
  - exact (Hb _ _ _ _ H).
  - apply each_after_app. split; [exact (Hb _ _ _ _ H1)|].
    apply (IH (List.length l2)) with (i := i') (o := o); [|reflexivity|exact H2].
    subst n. rewrite List.length_app.
    specialize (Hprog _ _ _ H1). destruct l1; [contradiction | cbn; lia].
  - apply each_after_app. split; [exact (Hb _ _ _ _ H1)|].
    apply run_Ret in H2. destruct H2 as [-> _]. exact Logic.I.
Qed.

End RunFacts.

(** ** The recursion unfolded

    [Connect] is the body of the function with [Connect] itself at the call
    of line 70. *)

Lemma interp_out X (e : connectE X) :
  interp (recursive Connect_rec) (trigger e) ≈ trigger e.
Proof. rewrite interp_trigger. cbn. reflexivity. Qed.

Tactic Notation "interp_call" "as" simple_intropattern(p) :=
  rewrite interp_bind; apply eutt_eq_bind'; [apply interp_out | intros p].

Ltac interp_ret := rewrite interp_ret; reflexivity.

Lemma interp_waitForServer cmd :
  interp (recursive Connect_rec) (waitForServer input cmd)
  ≈ waitForServer input cmd.
Proof.
  unfold waitForServer. apply interp_iter'_eutt. intros _.
  interp_call as [addr err].
  destruct (negb (addr =? "")); [interp_ret|].
  interp_call as [err'|]; interp_ret.
Qed.

Lemma interp_startServer :
  interp (recursive Connect_rec) (startServer input) ≈ startServer input.
Proof.
  unfold startServer.
  interp_call as _. interp_call as [exe [e|]]; [interp_ret|].
  interp_call as environ. interp_call as [e|]; [interp_ret|].
  interp_call as _.
  rewrite interp_bind. apply eutt_eq_bind'; [apply interp_waitForServer|].
  intros [err|addr]; [interp_ret|].
  unfold release. interp_call as [e|]; interp_ret.
Qed.

Lemma interp_findOrStart :
  interp (recursive Connect_rec) (findOrStart input) ≈ findOrStart input.
Proof.
  unfold findOrStart.
  interp_call as [addr [e|]]; [interp_ret|].
  destruct (addr =? ""); [apply interp_startServer | interp_ret].
Qed.

Lemma interp_readEvents scanner :
  interp (recursive Connect_rec) (readEvents input scanner)
  ≈ readEvents input scanner.
Proof.
  unfold readEvents. apply interp_iter'_eutt. intros _.
  interp_call as [|]; [|interp_ret].
  interp_call as line.
  destruct (json_Unmarshal line Event_zero) as [event [e|]]; [interp_ret|].
  interp_call as _. interp_ret.
Qed.

Theorem Connect_unfold :
  Connect ctx input ≈ Connect_body Connect ctx input.
Proof.
  unfold Connect at 1. fold Connect_rec. rewrite rec_as_interp.
  unfold Connect_rec at 2. cbn [fst snd]. unfold Connect_body.
  rewrite interp_bind. apply eutt_eq_bind'; [apply interp_findOrStart|].
  intros [ret|addr]; [interp_ret|].
  unfold attach.
  interp_call as [resp [e|]].
  - interp_call as _. rewrite interp_recursive_call. reflexivity.
  - cbv zeta.
    rewrite interp_bind. apply eutt_eq_bind'; [apply interp_readEvents|].
    intros _. interp_call as ret. interp_call as _. interp_ret.
Qed.

(** ** Executions of [Connect] *)

Lemma Connect_run l o :
  run (Connect ctx input) l o <-> run (Connect_body Connect ctx input) l o.
Proof. rewrite Connect_unfold at 1. reflexivity. Qed.

Ltac inv_event H :=
  apply event_inj in H;
  try (injection H as H; intros); subst; cbv beta iota in *.

Lemma run_call_cons X (e : connectE X) R (k : X -> itree connectE R) ev l o :
  run (x <- trigger e;; k x) (ev :: l) o <->
  exists x, ev = (e |-> x) /\ run (k x) l o.
Proof.
  rewrite run_call. change (subevent X e) with e. split.
  - intros [[H _] | (x & l' & Hl & H)]; [discriminate|].
    injection Hl as -> ->. eauto.
  - intros (x & -> & H). right. eauto.
Qed.

Lemma run_call_same X (e : connectE X) R (k : X -> itree connectE R) x l o :
  run (x <- trigger e;; k x) ((e |-> x) :: l) o <-> run (k x) l o.
Proof.
  rewrite run_call_cons. split.
  - intros (x' & Hx & H). apply event_inj in Hx. subst x'. exact H.
  - eauto.
Qed.

Lemma run_call_nil X (e : connectE X) R (k : X -> itree connectE R) o :
  run (x <- trigger e;; k x) [] o <-> o = None.
Proof.
  rewrite run_call. change (subevent X e) with e. split.
  - intros [[_ H] | (x & l' & Hl & H)]; [exact H | discriminate].
  - intros ->. left. auto.
Qed.


Lemma run_findOrStart_lookup R (k : option error + string -> itree connectE R)
      addr err l o :
  run (r <- findOrStart input;; k r) (lookup (addr, err) :: l) o <->
  run (r <- match err with
            | Some e => Ret (inl (Some e))
            | None => if addr =? "" then startServer input else Ret (inr addr)
            end;; k r) l o.
Proof.
  unfold findOrStart, lookup. rewrite bind_bind. rewrite run_call_same.
  reflexivity.
Qed.

Lemma run_Connect_hit addr l o :
  addr <> "" ->
  run (Connect ctx input) (lookup (addr, None) :: l) o <->
  run (attach Connect ctx input addr) l o.
Proof.
  intros Haddr. rewrite Connect_run. unfold Connect_body.
  rewrite run_findOrStart_lookup.
  apply String.eqb_neq in Haddr. rewrite Haddr. rewrite bind_ret_l.
  reflexivity.
Qed.

Lemma run_Connect_lookup_err addr e l o :
  run (Connect ctx input) (lookup (addr, Some e) :: l) o <->
  l = [] /\ (o = None \/ o = Some (Some e)).
Proof.
  rewrite Connect_run. unfold Connect_body.
  rewrite run_findOrStart_lookup. rewrite !bind_ret_l. apply run_Ret.
Qed.

Lemma run_Connect_spawned exe env l o :
  run (Connect ctx input) (spawned exe env ++ l) o <->
  run (r <- waitForServer input (serverCmd input exe env);;
       afterWait (serverCmd input exe env) r) l o.
Proof.
  rewrite Connect_run. unfold Connect_body, spawned. cbn [app].
  rewrite run_findOrStart_lookup. cbn [String.eqb].
  unfold startServer. rewrite !bind_bind.
  rewrite run_call_same. rewrite !bind_bind. rewrite run_call_same.
  rewrite !bind_bind. rewrite run_call_same.
  rewrite !bind_bind. rewrite run_call_same.
  rewrite !bind_bind. rewrite run_call_same.
  rewrite !bind_bind.
  assert (Hk : forall r : option error + string,
             (r0 <- match r with
                    | inl err => Ret (inl err)
                    | inr addr => release (serverCmd input exe env) addr
                    end;;
              match r0 with
              | inl err => Ret err
              | inr addr => attach Connect ctx input addr
              end) ≈ afterWait (serverCmd input exe env) r).
  { intros [err|addr]; cbn; [rewrite bind_ret_l|]; reflexivity. }
  apply run_eutt; try reflexivity.
  apply eutt_eq_bind. exact Hk.
Qed.


(** One turn of the loop of line 48. *)
Lemma run_wait_turn R (k : option error + string -> itree connectE R)
      cmd addr err l o :
  run (r <- waitForServer input cmd;; k r) (lookup (addr, err) :: l) o <->
  run (if negb (addr =? "") then k (inr addr)
       else
         s <- trigger (select_cmdExited_After cmd (100 * time_Millisecond));;
         match s with
         | recv_cmdExited e => k (inl e)
         | recv_After => r <- waitForServer input cmd;; k r
         end) l o.
Proof.
  unfold waitForServer at 1, lookup.
  rewrite unfold_iter. rewrite !bind_bind. rewrite run_call_same.
  destruct (negb (addr =? "")).
  - rewrite !bind_ret_l. reflexivity.
  - rewrite !bind_bind. apply run_eutt; try reflexivity.
    apply eutt_eq_bind. intros [e|].
    + rewrite !bind_ret_l. reflexivity.
    + rewrite !bind_ret_l. rewrite tau_eutt. reflexivity.
Qed.

Lemma run_wait_nil R (k : option error + string -> itree connectE R) cmd o :
  run (r <- waitForServer input cmd;; k r) [] o <-> o = None.
Proof.
  unfold waitForServer. rewrite unfold_iter. rewrite !bind_bind.
  apply run_call_nil.
Qed.

Lemma run_wait_hit R (k : option error + string -> itree connectE R)
      cmd addr err l o :
  addr <> "" ->
  run (r <- waitForServer input cmd;; k r) (lookup (addr, err) :: l) o <->
  run (k (inr addr)) l o.
Proof.
  intros Haddr. rewrite run_wait_turn.
  apply String.eqb_neq in Haddr. rewrite Haddr. reflexivity.
Qed.

Lemma run_wait_tick R (k : option error + string -> itree connectE R)
      cmd err l o :
  run (r <- waitForServer input cmd;; k r)
      (lookup ("", err) :: selected cmd recv_After :: l) o <->
  run (r <- waitForServer input cmd;; k r) l o.
Proof.
  rewrite run_wait_turn. cbn [String.eqb negb]. unfold selected.
  rewrite run_call_same. reflexivity.
Qed.

Lemma run_wait_exit R (k : option error + string -> itree connectE R)
      cmd err e l o :
  run (r <- waitForServer input cmd;; k r)
      (lookup ("", err) :: selected cmd (recv_cmdExited e) :: l) o <->
  run (k (inl e)) l o.
Proof.
  rewrite run_wait_turn. cbn [String.eqb negb]. unfold selected.
  rewrite run_call_same. reflexivity.
Qed.

Lemma run_wait_miss R (k : option error + string -> itree connectE R)
      cmd err ev l o :
  run (r <- waitForServer input cmd;; k r) (lookup ("", err) :: ev :: l) o ->
  exists s, ev = selected cmd s.
Proof.
  rewrite run_wait_turn. cbn [String.eqb negb].
  rewrite run_call_cons. intros (s & -> & _). exists s. reflexivity.
Qed.

Lemma run_wait_polled R (k : option error + string -> itree connectE R)
      cmd errs l o :
  run (r <- waitForServer input cmd;; k r) (polled cmd errs ++ l) o <->
  run (r <- waitForServer input cmd;; k r) l o.
Proof.
  induction errs as [|e errs IH]; cbn; [reflexivity|].
  rewrite run_wait_tick. exact IH.
Qed.


(** Lines 61-64. *)
Lemma run_release R (k : option error + string -> itree connectE R)
      cmd addr ev l o :
  run (r <- release cmd addr;; k r) (ev :: l) o <->
  exists err, ev = (Process_Release cmd |-> err) /\
    run (k match err with
           | Some e => inl (Some e)
           | None => inr addr
           end) l o.
Proof.
  unfold release. rewrite bind_bind. rewrite run_call_cons.
  split; intros (err & -> & H); exists err; (split; [reflexivity|]);
    destruct err; rewrite ?bind_ret_l in *; exact H.
Qed.

(** Line 67 and the branch on its result. *)
Lemma run_attach self addr ev l o :
  run (attach self ctx input addr) (ev :: l) o <->
  exists resp err, ev = (http_Get (streamURL addr) |-> (resp, err)) /\
    match err with
    | Some _ =>
      run (trigger (cleanupExisting (CfgPath input) (Stage input));;
           self ctx input) l o
    | None => run (readStream resp) l o
    end.
Proof.
  unfold attach. rewrite run_call_cons. split.
  - intros ([resp err] & -> & H). exists resp, err. split; [reflexivity|].
    destruct err; exact H.
  - intros (resp & err & -> & H). exists (resp, err). split; [reflexivity|].
    destruct err; exact H.
Qed.

Lemma run_attach_nil
      (self : context_Context -> ConnectInput -> itree connectE (option error))
      addr o :
  run (attach self ctx input addr) [] o <-> o = None.
Proof. unfold attach. apply run_call_nil. Qed.

(** The first lookup finds the server and the GET is made. *)
Lemma run_Connect_hit_get addr ans :
  addr <> "" ->
  run (Connect ctx input)
      ([lookup (addr, None)] ++ [http_Get (streamURL addr) |-> ans]) None.
Proof.
  intros Haddr. cbn [app]. rewrite run_Connect_hit by assumption.
  rewrite run_attach. destruct ans as [resp err]. exists resp, err.
  split; [reflexivity|]. destruct err; apply run_nil.
Qed.

(** One turn of the loop of line 77. *)
Lemma run_read_turn R (t : itree connectE R) sc more l o :
  run (readEvents input sc;; t) ((Scanner_Scan sc |-> more) :: l) o <->
  run (if more then
         line <- trigger (Scanner_Bytes sc);;
         let '(event, err) := json_Unmarshal line Event_zero in
         match err with
         | Some _ => readEvents input sc;; t
         | None =>
           trigger (input_OnEvent input event);; readEvents input sc;; t
         end
       else t) l o.
Proof.
  unfold readEvents at 1.
  rewrite unfold_iter. rewrite !bind_bind. rewrite run_call_same.
  destruct more.
  - rewrite !bind_bind. apply run_eutt; try reflexivity.
    apply eutt_eq_bind. intros line.
    destruct (json_Unmarshal line Event_zero) as [event [e|]].
    + rewrite !bind_ret_l. rewrite tau_eutt. reflexivity.
    + rewrite !bind_bind. apply eutt_eq_bind. intros [].
      rewrite !bind_ret_l. rewrite tau_eutt. reflexivity.
  - rewrite !bind_ret_l. reflexivity.
Qed.

Lemma run_read_first R (t : itree connectE R) sc ev l o :
  run (readEvents input sc;; t) (ev :: l) o ->
  exists more, ev = (Scanner_Scan sc |-> more).
Proof.
  unfold readEvents. rewrite unfold_iter. rewrite !bind_bind.
  rewrite run_call_cons. intros (x & -> & _). eauto.
Qed.

Lemma run_read_stop R (t : itree connectE R) sc l o :
  run (readEvents input sc;; t) ((Scanner_Scan sc |-> false) :: l) o <->
  run t l o.
Proof. rewrite run_read_turn. reflexivity. Qed.

Lemma run_read_scanned R (t : itree connectE R) sc line l o :
  run (readEvents input sc;; t) (scanned sc line ++ l) o <->
  run (readEvents input sc;; t) l o.
Proof.
  unfold scanned. cbn [app]. rewrite run_read_turn. rewrite run_call_same.
  unfold deliver. destruct (json_Unmarshal line Event_zero) as [event [e|]].
  - reflexivity.
  - cbn [app]. rewrite run_call_same. reflexivity.
Qed.

(** A finished execution in which [Scan] found a line has the whole of
    [scanned] for that line. *)
Lemma run_read_more R (t : itree connectE R) sc l r :
  run (readEvents input sc;; t) ((Scanner_Scan sc |-> true) :: l) (Some r) ->
  exists line l',
    (Scanner_Scan sc |-> true) :: l = scanned sc line ++ l' /\
    run (readEvents input sc;; t) l' (Some r).
Proof.
  rewrite run_read_turn. destruct l as [|ev l].
  { rewrite run_call_nil. discriminate. }
  rewrite run_call_cons. intros (line & -> & H).
  exists line. unfold scanned, deliver.
  destruct (json_Unmarshal line Event_zero) as [event [e|]].
  - exists l. split; [reflexivity | exact H].
  - destruct l as [|ev l].
    { apply run_call_nil in H. discriminate. }
    apply run_call_cons in H. destruct H as ([] & -> & H).
    exists l. split; [reflexivity | exact H].
Qed.


Lemma follows_deliver s line l :
  follows s (deliver line ++ l) <-> follows s l.
Proof.
  unfold deliver. destruct (json_Unmarshal line Event_zero) as [event [e|]];
    reflexivity.
Qed.

Lemma follows_scanned s sc line l :
  follows s (scanned sc line ++ l) <->
  fst (bufio_Scan sc s) = true /\
  line = bufio_Bytes (snd (bufio_Scan sc s)) /\
  follows (snd (bufio_Scan sc s)) l.
Proof.
  unfold scanned. cbn [app follows]. rewrite follows_deliver.
  intuition congruence.
Qed.

Lemma scanned_lines_cons sc line lines :
  scanned_lines sc (line :: lines) =
  scanned sc (dropCR line) ++ scanned_lines sc lines.
Proof. reflexivity. Qed.

Lemma scan_token_eta s :
  ss_stop s = None -> scan_token s (ss_token s) (ss_rest s) = s.
Proof. destruct s; cbn; intros ->; reflexivity. Qed.

(** The stream begins with lines that fit: a finished execution of the read
    loop begins with the calls for these lines. *)
Lemma read_lines R (t : itree connectE R) sc lines :
  forall s rest l r,
    ss_stop s = None ->
    ss_rest s = join_lines lines ++ rest ->
    Forall (fits sc) lines ->
    run (readEvents input sc;; t) l (Some r) ->
    follows s l ->
    exists tok l',
      l = scanned_lines sc lines ++ l' /\
      run (readEvents input sc;; t) l' (Some r) /\
      follows (scan_token s tok rest) l'.
Proof.
  induction lines as [|line lines IH]; intros s rest l r Hs Hr Hfit Hrun Hfol.
  - cbn in Hr. exists (ss_token s), l. cbn. rewrite <- Hr.
    rewrite scan_token_eta by assumption. auto.
  - inversion Hfit as [|? ? [Hn Hlen] Hfit']; subst.
    rewrite join_lines_cons in Hr.
    pose proof (@Scan_line sc s Hs _ _ Hr Hn Hlen) as HScan.
    destruct l as [|ev l].
    { unfold readEvents in Hrun. rewrite unfold_iter in Hrun.
      rewrite !bind_bind in Hrun. apply run_call_nil in Hrun. discriminate. }
    destruct (run_read_first _ _ Hrun) as (more & ->).
    cbn in Hfol. rewrite HScan in Hfol. cbn in Hfol. destruct Hfol as [-> Hfol].
    apply run_read_more in Hrun. destruct Hrun as (line' & l' & Hl & Hrun).
    rewrite Hl in *. unfold scanned in Hl. cbn [app] in Hl.
    injection Hl as Hl. subst l.
    cbn in Hfol. destruct Hfol as [-> Hfol]. rewrite follows_deliver in Hfol.
    destruct (IH (scan_token s (dropCR line) (join_lines lines ++ rest))
                 rest l' r eq_refl eq_refl Hfit' Hrun Hfol)
      as (tok & l'' & -> & Hrun' & Hfol').
    exists tok, l''. split; [|split; assumption].
    rewrite scanned_lines_cons, <- app_assoc. reflexivity.
Qed.

(** Conversely, the calls for lines that fit are an execution. *)
Lemma read_lines_run R (t : itree connectE R) sc lines l o :
  run (readEvents input sc;; t) (scanned_lines sc lines ++ l) o <->
  run (readEvents input sc;; t) l o.
Proof.
  induction lines as [|line lines IH]; [reflexivity|].
  rewrite scanned_lines_cons, <- app_assoc. rewrite run_read_scanned. exact IH.
Qed.

Lemma read_lines_follows sc lines :
  forall s rest l,
    ss_stop s = None ->
    ss_rest s = join_lines lines ++ rest ->
    Forall (fits sc) lines ->
    (forall tok, follows (scan_token s tok rest) l) ->
    follows s (scanned_lines sc lines ++ l).
Proof.
  induction lines as [|line lines IH]; intros s rest l Hs Hr Hfit Hl.
  - cbn in Hr. cbn. specialize (Hl (ss_token s)). rewrite <- Hr in Hl.
    rewrite scan_token_eta in Hl by assumption. exact Hl.
  - inversion Hfit as [|? ? [Hn Hlen] Hfit']; subst.
    rewrite join_lines_cons in Hr.
    pose proof (@Scan_line sc s Hs _ _ Hr Hn Hlen) as HScan.
    rewrite scanned_lines_cons, <- app_assoc.
    apply follows_scanned. rewrite HScan. cbn. repeat split.
    apply (IH _ rest); auto.
Qed.


(** ** The address found at the first lookup is used at once *)

(** C7.  When the first lookup yields an address, the call that follows it
    is the GET of the [/stream] endpoint at that address: no process is
    started and nothing probes the address first. *)
Theorem C7_found_address_used addr :
  addr <> "" ->
  (forall ans,
      run (Connect ctx input)
          [lookup (addr, None); http_Get (streamURL addr) |-> ans] None) /\
  (forall ev l o,
      run (Connect ctx input) (lookup (addr, None) :: ev :: l) o ->
      exists ans, ev = (http_Get (streamURL addr) |-> ans)).
Proof.
  intros Haddr. split.
  - intros [resp err]. rewrite run_Connect_hit by assumption.
    rewrite run_attach. exists resp, err. split; [reflexivity|].
    destruct err; apply run_nil.
  - intros ev l o H. rewrite run_Connect_hit in H by assumption.
    apply run_attach in H. destruct H as (resp & err & -> & _). eauto.
Qed.

(** ** Errors of the lookups *)

(** C10.  An error of the first lookup ends [Connect], which returns it.  In
    the loop that waits for the started server the error of a lookup is
    dropped: whatever the errors [errs] of the lookups so far, the loop goes
    on; after one more failing lookup the next call is the [select], not a
    return; and the executions are those of lookups that reported no error
    at all. *)
Theorem C10_lookup_errors :
  (forall addr e,
      run (Connect ctx input) [lookup (addr, Some e)] (Some (Some e)) /\
      forall l o,
        run (Connect ctx input) (lookup (addr, Some e) :: l) o ->
        l = [] /\ (o = None \/ o = Some (Some e))) /\
  (forall exe env errs,
      let cmd := serverCmd input exe env in
      run (Connect ctx input) (spawned exe env ++ polled cmd errs) None /\
      (forall err ev l o,
          run (Connect ctx input)
              (spawned exe env ++ polled cmd errs ++ lookup ("", err) :: ev :: l)
              o ->
          exists s, ev = selected cmd s) /\
      (forall l o,
          run (Connect ctx input) (spawned exe env ++ polled cmd errs ++ l) o <->
          run (Connect ctx input)
              (spawned exe env ++ polled cmd (List.map (fun _ => None) errs) ++ l) o)).
Proof.
  split.
  - intros addr e. split.
    + apply run_Connect_lookup_err. auto.
    + intros l o H. apply run_Connect_lookup_err in H. exact H.
  - intros exe env errs cmd. subst cmd. repeat split.
    + rewrite <- (app_nil_r (polled _ errs)).
      rewrite run_Connect_spawned. rewrite run_wait_polled.
      apply run_wait_nil. reflexivity.
    + intros err ev l o H. rewrite run_Connect_spawned in H.
      rewrite run_wait_polled in H. apply run_wait_miss in H. exact H.
    + rewrite !run_Connect_spawned. rewrite !run_wait_polled. auto.
    + rewrite !run_Connect_spawned. rewrite !run_wait_polled. auto.
Qed.


(** ** Waiting for the started server *)

(** C1, as the code has it.  The server process is started and the loop has
    made the turns [errs].  A lookup that finds nothing is followed by the
    [select] on the exit of the process and a timer of 100 ms.  When the
    [select] receives the failure [e] of the process, [Connect] returns [e]
    and makes no further call.  When a lookup finds an address the loop is
    left: the next call releases the process; if that fails [Connect] returns
    the failure, and if it works the next call is the GET at that address.
    Each of these calls is made: the [select] after a lookup that finds
    nothing, the release after a lookup that finds an address, and the GET
    after a release that worked, with whatever answer. *)
Theorem C1_wait_for_server exe env errs :
  let cmd := serverCmd input exe env in
  let started := spawned exe env ++ polled cmd errs in
  (forall err ev l o,
      run (Connect ctx input) (started ++ lookup ("", err) :: ev :: l) o ->
      exists s, ev = selected cmd s) /\
  (forall err e l o,
      run (Connect ctx input)
          (started ++
           lookup ("", err) :: selected cmd (recv_cmdExited (Some e)) :: l) o <->
      l = [] /\ (o = None \/ o = Some (Some e))) /\
  (forall addr err ev l o,
      addr <> "" ->
      run (Connect ctx input) (started ++ lookup (addr, err) :: ev :: l) o ->
      exists rel, ev = (Process_Release cmd |-> rel)) /\
  (forall addr err e l o,
      addr <> "" ->
      run (Connect ctx input)
          (started ++
           lookup (addr, err) :: (Process_Release cmd |-> Some e) :: l) o <->
      l = [] /\ (o = None \/ o = Some (Some e))) /\
  (forall addr err ev l o,
      addr <> "" ->
      run (Connect ctx input)
          (started ++
           lookup (addr, err) :: (Process_Release cmd |-> None) :: ev :: l) o ->
      exists ans, ev = (http_Get (streamURL addr) |-> ans)) /\
  (forall err s,
      run (Connect ctx input)
          (started ++ [lookup ("", err); selected cmd s]) None) /\
  (forall addr err rel,
      addr <> "" ->
      run (Connect ctx input)
          (started ++ [lookup (addr, err); Process_Release cmd |-> rel])
          None) /\
  (forall addr err ans,
      addr <> "" ->
      run (Connect ctx input)
          (started ++
           [ lookup (addr, err);
             Process_Release cmd |-> None;
             http_Get (streamURL addr) |-> ans ])
          None).
Proof.
  intros cmd started. subst cmd started.
  split; [|split; [|split; [|split; [|split; [|split; [|split]]]]]].
  - intros err ev l o H. rewrite <- app_assoc in H.
    rewrite run_Connect_spawned, run_wait_polled in H.
    apply run_wait_miss in H. exact H.
  - intros err e l o.
    rewrite <- app_assoc, run_Connect_spawned, run_wait_polled, run_wait_exit.
    apply run_Ret.
  - intros addr err ev l o Haddr H.
    rewrite <- app_assoc, run_Connect_spawned, run_wait_polled in H.
    rewrite run_wait_hit in H by assumption. cbn [afterWait] in H.
    apply run_release in H. destruct H as (rel & -> & _). eauto.
  - intros addr err e l o Haddr.
    rewrite <- app_assoc, run_Connect_spawned, run_wait_polled.
    rewrite run_wait_hit by assumption. cbn [afterWait]. split.
    + intros H. apply run_release in H. destruct H as (rel & Hrel & H).
      inv_event Hrel. apply run_Ret in H. exact H.
    + intros [-> Ho]. apply run_release. eexists. split; [reflexivity|].
      apply run_Ret. auto.
  - intros addr err ev l o Haddr H.
    rewrite <- app_assoc, run_Connect_spawned, run_wait_polled in H.
    rewrite run_wait_hit in H by assumption. cbn [afterWait] in H.
    apply run_release in H. destruct H as (rel & Hrel & H).
    inv_event Hrel. apply run_attach in H. destruct H as (resp & e & -> & _).
    eauto.
  - intros err s.
    rewrite <- app_assoc, run_Connect_spawned, run_wait_polled.
    destruct s as [w|].
    + apply run_wait_exit. apply run_nil.
    + apply run_wait_tick. apply run_nil.
  - intros addr err rel Haddr.
    rewrite <- app_assoc, run_Connect_spawned, run_wait_polled.
    rewrite run_wait_hit by assumption. cbn [afterWait].
    apply run_release. exists rel. split; [reflexivity|]. apply run_nil.
  - intros addr err [resp e] Haddr.
    rewrite <- app_assoc, run_Connect_spawned, run_wait_polled.
    rewrite run_wait_hit by assumption. cbn [afterWait].
    apply run_release. exists None. split; [reflexivity|].
    apply run_attach. exists resp, e. split; [reflexivity|].
    destruct e; apply run_nil.
Qed.

(** The process exited without failure before anything was registered:
    [Connect] returns nil. *)
Lemma run_Connect_exit_nil exe env errs err :
  run (Connect ctx input)
      (spawned exe env ++ polled (serverCmd input exe env) errs ++
       [lookup ("", err);
        selected (serverCmd input exe env) (recv_cmdExited None)])
      (Some None).
Proof.
  rewrite run_Connect_spawned, run_wait_polled, run_wait_exit.
  apply run_Ret. auto.
Qed.

(** ** Which calls are made where *)

Lemma only_trigger R X (P : event connectE -> Prop) (e : connectE X)
      (k : X -> itree connectE R) :
  (forall x, P (e |-> x)) -> (forall x, only P (k x)) ->
  only P (x <- trigger e;; k x).
Proof. apply only_call. Qed.

Lemma waitForServer_launching cmd : only launching (waitForServer input cmd).
Proof.
  unfold waitForServer. apply only_iter.
  - intros _. apply only_trigger; [intros; exact I|]. intros [addr err].
    destruct (negb (addr =? "")); [apply only_Ret|].
    apply only_trigger; [intros; exact I|]. intros [e|]; apply only_Ret.
  - intros _ l i' H. destruct l; [|discriminate].
    apply run_call_nil in H. discriminate.
Qed.

Lemma startServer_launching : only launching (startServer input).
Proof.
  unfold startServer.
  apply only_trigger; [intros; exact I|]. intros _.
  apply only_trigger; [intros; exact I|]. intros [exe [e|]]; [apply only_Ret|].
  apply only_trigger; [intros; exact I|]. intros environ.
  apply only_trigger; [intros; exact I|]. intros [e|]; [apply only_Ret|].
  apply only_trigger; [intros; exact I|]. intros _.
  apply only_bind; [apply waitForServer_launching|].
  intros [err|addr]; [apply only_Ret|].
  unfold release. apply only_trigger; [intros; exact I|].
  intros [e|]; apply only_Ret.
Qed.

Lemma findOrStart_launching : only launching (findOrStart input).
Proof.
  unfold findOrStart. apply only_trigger; [intros; exact I|].
  intros [addr [e|]]; [apply only_Ret|].
  destruct (addr =? ""); [apply startServer_launching | apply only_Ret].
Qed.

Lemma readStream_reading resp : only reading (readStream resp).
Proof.
  unfold readStream. apply only_bind.
  - unfold readEvents. apply only_iter.
    + intros _. apply only_trigger; [intros; exact I|]. intros [|].
      * apply only_trigger; [intros; exact I|]. intros line.
        destruct (json_Unmarshal line Event_zero) as [event [e|]];
          [apply only_Ret|].
        apply only_trigger; [intros; exact I|]. intros _. apply only_Ret.
      * apply only_Ret.
    + intros _ l i' H. destruct l; [|discriminate].
      apply run_call_nil in H. discriminate.
  - intros _. apply only_trigger; [intros; exact I|]. intros ret.
    apply only_trigger; [intros; exact I|]. intros _. apply only_Ret.
Qed.

(** ** From the beginning to a GET *)

(** Whatever [Connect] did before a GET (a find-or-start phase, or several
    with failed connections between them), what it does after the GET is
    decided by the answer: after a failure it removes the registration and
    starts again, after a success it reads the stream. *)
Lemma run_Connect_get pre url resp err :
  run (Connect ctx input) (pre ++ [http_Get url |-> (resp, err)]) None ->
  forall l o,
    run (Connect ctx input) (pre ++ (http_Get url |-> (resp, err)) :: l) o <->
    run (match err with
         | Some _ =>
           trigger (cleanupExisting (CfgPath input) (Stage input));;
           Connect ctx input
         | None => readStream resp
         end) l o.
Proof.
  remember (List.length pre) as n eqn:Hn. revert pre Hn.
  induction n as [n IH] using lt_wf_ind. intros pre Hn H0 l o.
  rewrite Connect_run in H0. unfold Connect_body in H0.
  apply run_bind_inv in H0.
  destruct H0 as [[_ H0] | (l1 & l2 & x & Heq & H1 & H2)].
  { apply findOrStart_launching in H0. apply Forall_app in H0.
    destruct H0 as [_ H0]. inversion H0 as [|? ? HG _]. contradiction HG. }
  pose proof (findOrStart_launching H1) as Hl1.
  assert (Hm : exists m, pre = l1 ++ m /\
                         l2 = m ++ [http_Get url |-> (resp, err)]).
  { apply app_eq_app in Heq. destruct Heq as (m & [[-> ->] | [-> Hm]]).
    - exists m. auto.
    - destruct m as [|ev m].
      + cbn in Hm. subst l2. exists []. rewrite !app_nil_r. auto.
      + injection Hm as <- _. apply Forall_app in Hl1. destruct Hl1 as [_ Hl1].
        inversion Hl1 as [|? ? HG _]. contradiction HG. }
  destruct Hm as (m & -> & ->). clear Heq.
  destruct x as [e|addr].
  { apply run_Ret in H2. destruct H2 as [H2 _].
    apply app_eq_nil in H2. destruct H2 as [_ H2]. discriminate H2. }
  rewrite <- app_assoc. rewrite Connect_run. unfold Connect_body.
  rewrite (run_bind_after _ _ _ H1).
  destruct m as [|ev m].
  - cbn [app] in *. apply run_attach in H2.
    destruct H2 as (resp' & err' & HG & _).
    apply (f_equal got) in HG. cbv beta iota delta [got] in HG.
    injection HG as -> -> ->.
    rewrite run_attach. split.
    + intros (resp'' & err'' & HG & H). apply event_inj in HG.
      injection HG as <- <-. destruct err'; exact H.
    + intros H. exists resp', err'. split; [reflexivity|].
      destruct err'; exact H.
  - cbn [app] in *. apply run_attach in H2.
    destruct H2 as (resp' & err' & -> & H2). destruct err' as [e'|].
    + destruct m as [|ev' m]; cbn [app] in H2.
      { apply run_call_cons in H2. destruct H2 as (x & HG & _).
        apply (f_equal got) in HG. discriminate HG. }
      apply run_call_cons in H2. destruct H2 as ([] & -> & H2).
      assert (Hlen : (List.length m < n)%nat).
      { subst n. rewrite List.length_app. cbn. lia. }
      pose proof (IH _ Hlen m eq_refl H2 l o) as IHm.
      rewrite run_attach. split.
      * intros (resp'' & err'' & HG & H). apply event_inj in HG.
        injection HG as <- <-. cbv beta iota in H. cbn [app] in H.
        rewrite run_call_same in H. apply IHm. exact H.
      * intros H. exists resp', (Some e'). split; [reflexivity|].
        cbn [app]. rewrite run_call_same. apply IHm. exact H.
    + apply readStream_reading in H2. apply Forall_app in H2.
      destruct H2 as [_ H2]. inversion H2 as [|? ? HG _]. contradiction HG.
Qed.

(** ** The connection fails *)

Lemma run_Connect_failed att l o :
  failed att ->
  run (Connect ctx input) (att ++ l) o <-> run (Connect ctx input) l o.
Proof.
  intros (pre & url & resp & e & Hpre & ->).
  unfold attempt. rewrite <- app_assoc. cbn [app].
  rewrite (@run_Connect_get _ _ _ _ Hpre).
  apply run_call_same.
Qed.

(** C2.  An execution got to a GET and the GET failed: the registry had
    yielded the address, at the first lookup or after the server was
    started.  The next call removes the registration, and what follows is an
    execution of [Connect] from its beginning, with the same arguments.
    Nothing counts or limits the retries: after any number of failed
    attempts [Connect] is again at its beginning. *)
Theorem C2_retry_after_failed_connection :
  (forall pre url resp e,
      run (Connect ctx input) (pre ++ [http_Get url |-> (resp, Some e)]) None ->
      (forall ev l o,
          run (Connect ctx input)
              (pre ++ (http_Get url |-> (resp, Some e)) :: ev :: l) o ->
          ev = (cleanupExisting (CfgPath input) (Stage input) |-> tt)) /\
      (forall l o,
          run (Connect ctx input)
              (pre ++ (http_Get url |-> (resp, Some e)) ::
               (cleanupExisting (CfgPath input) (Stage input) |-> tt) :: l) o <->
          run (Connect ctx input) l o)) /\
  (forall atts l o,
      Forall failed atts ->
      run (Connect ctx input) (List.concat atts ++ l) o <->
      run (Connect ctx input) l o).
Proof.
  split.
  - intros pre url resp e Hpre. split.
    + intros ev l o H. rewrite (@run_Connect_get _ _ _ _ Hpre) in H.
      apply run_call_cons in H. destruct H as ([] & -> & _). reflexivity.
    + intros l o. rewrite (@run_Connect_get _ _ _ _ Hpre). apply run_call_same.
  - intros atts l o Hf. induction Hf as [|att atts Hatt _ IH]; [reflexivity|].
    cbn [List.concat]. rewrite <- app_assoc.
    rewrite run_Connect_failed by assumption. exact IH.
Qed.

(** ** The stream *)

Lemma readStream_finish resp : readStream resp =
  (readEvents input (streamScanner ctx resp);; finish resp).
Proof. reflexivity. Qed.

Lemma run_finish resp l r :
  run (finish resp) l (Some r) <->
  l = [Scanner_Err (streamScanner ctx resp) |-> r; Body_Close (Body resp) |-> tt].
Proof.
  unfold finish. split.
  - intros H. destruct l as [|ev l]; [apply run_call_nil in H; discriminate|].
    apply run_call_cons in H. destruct H as (ret & -> & H).
    destruct l as [|ev l]; [apply run_call_nil in H; discriminate|].
    apply run_call_cons in H. destruct H as ([] & -> & H).
    apply run_Ret in H. destruct H as [-> [H|H]]; [discriminate|].
    injection H as ->. reflexivity.
  - intros ->. rewrite !run_call_same. apply run_Ret. auto.
Qed.

Lemma run_read_nil R (t : itree connectE R) sc o :
  run (readEvents input sc;; t) [] o <-> o = None.
Proof.
  unfold readEvents. rewrite unfold_iter. rewrite !bind_bind.
  apply run_call_nil.
Qed.

(** A finished execution of the read loop: some lines, then [Scan] says
    no. *)
Lemma read_complete R (t : itree connectE R) sc l r :
  run (readEvents input sc;; t) l (Some r) ->
  exists lines l',
    l = flat_map (scanned sc) lines ++ (Scanner_Scan sc |-> false) :: l' /\
    run t l' (Some r).
Proof.
  remember (List.length l) as n eqn:Hn. revert l Hn.
  induction n as [n IH] using lt_wf_ind. intros l Hn H.
  destruct l as [|ev l]; [apply run_read_nil in H; discriminate|].
  destruct (run_read_first _ _ H) as ([|] & ->).
  - apply run_read_more in H. destruct H as (line & l' & Hl & H).
    assert (Hlen : (List.length l' < n)%nat).
    { subst n. rewrite Hl. unfold scanned. cbn. rewrite List.length_app. lia. }
    destruct (IH _ Hlen l' eq_refl H) as (lines & l'' & -> & Hk).
    exists (line :: lines), l''. split; [|exact Hk].
    rewrite Hl. cbn [flat_map]. rewrite <- app_assoc. reflexivity.
  - apply run_read_stop in H. exists [], l. auto.
Qed.

Lemma readStream_complete resp l r :
  run (readStream resp) l (Some r) <->
  exists lines,
    l = flat_map (scanned (streamScanner ctx resp)) lines ++ finished resp r.
Proof.
  rewrite readStream_finish. split.
  - intros H. apply (read_complete (finish resp)) in H.
    destruct H as (lines & l' & -> & H). apply run_finish in H. subst l'.
    exists lines. reflexivity.
  - intros (lines & ->). induction lines as [|line lines IH].
    + cbn [flat_map app]. unfold finished.
      rewrite (run_read_stop (finish resp)). apply run_finish.
      reflexivity.
    + cbn [flat_map]. rewrite <- app_assoc.
      rewrite (run_read_scanned (finish resp)). exact IH.
Qed.

Lemma handled_app l1 l2 : handled (l1 ++ l2) = handled l1 ++ handled l2.
Proof.
  induction l1 as [|[X e x] l1 IH]; [reflexivity|].
  cbn. destruct e; cbn; rewrite ?IH; reflexivity.
Qed.

Lemma handled_scanned_lines sc lines :
  handled (scanned_lines sc lines) = decoded lines.
Proof.
  induction lines as [|line lines IH]; [reflexivity|].
  rewrite scanned_lines_cons, handled_app, IH.
  unfold decoded at 2. cbn [flat_map]. fold (decoded lines). f_equal.
  unfold scanned, deliver. cbn.
  destruct (json_Unmarshal (dropCR line) Event_zero) as [event [e|]];
    reflexivity.
Qed.


(** ** The stream, line by line *)

Lemma streamScanner_limit resp :
  scan_limit (streamScanner ctx resp) = (1024 * 1024 * 100)%Z.
Proof. reflexivity. Qed.

Lemma scanned_lines_app sc lines1 lines2 :
  scanned_lines sc (lines1 ++ lines2) =
  scanned_lines sc lines1 ++ scanned_lines sc lines2.
Proof. apply flat_map_app. Qed.

(** The input is used up. *)
Lemma end_of_input resp st l r :
  ss_stop st = None ->
  ss_rest st = [] ->
  run (readStream resp) l (Some r) /\ follows st l <->
  l = finished resp (end_error (ss_end st)) /\ r = end_error (ss_end st).
Proof.
  intros Hs Hr.
  assert (HScan : bufio_Scan (streamScanner ctx resp) st
                  = (false, scan_stop st (end_error (ss_end st)))).
  { apply Scan_end; [assumption | assumption | rewrite streamScanner_limit; lia]. }
  split.
  - intros [Hrun Hfol]. rewrite readStream_finish in Hrun.
    destruct l as [|ev l]; [apply run_read_nil in Hrun; discriminate|].
    destruct (run_read_first _ _ Hrun) as (more & ->).
    cbn in Hfol. rewrite HScan in Hfol. cbn in Hfol.
    destruct Hfol as [-> Hfol].
    apply (run_read_stop (finish resp)) in Hrun.
    apply run_finish in Hrun. subst l. cbn in Hfol.
    destruct Hfol as [-> _]. split; reflexivity.
  - intros [-> ->]. split.
    + apply readStream_complete. exists []. reflexivity.
    + cbn. rewrite HScan. cbn. auto.
Qed.

(** A line that does not fit comes next. *)
Lemma line_too_long resp st long tail l r :
  ss_stop st = None ->
  ss_rest st = long ++ tail ->
  ~ In x0a long ->
  (1024 * 1024 * 100 < Z.of_nat (List.length long))%Z ->
  run (readStream resp) l (Some r) /\ follows st l <->
  l = finished resp (Some bufio_ErrTooLong) /\ r = Some bufio_ErrTooLong.
Proof.
  intros Hs Hr Hn Hlen.
  assert (HScan : bufio_Scan (streamScanner ctx resp) st
                  = (false, scan_stop st (Some bufio_ErrTooLong))).
  { eapply Scan_long; eauto. }
  split.
  - intros [Hrun Hfol]. rewrite readStream_finish in Hrun.
    destruct l as [|ev l]; [apply run_read_nil in Hrun; discriminate|].
    destruct (run_read_first _ _ Hrun) as (more & ->).
    cbn in Hfol. rewrite HScan in Hfol. cbn in Hfol.
    destruct Hfol as [-> Hfol].
    apply (run_read_stop (finish resp)) in Hrun.
    apply run_finish in Hrun. subst l. cbn in Hfol.
    destruct Hfol as [-> _]. split; reflexivity.
  - intros [-> ->]. split.
    + apply readStream_complete. exists []. reflexivity.
    + cbn. rewrite HScan. cbn. auto.
Qed.

(** The lines that fit, handed out one after the other: what is left of the
    execution is an execution from the state after these lines. *)
Lemma lines_first resp st lines rest l r :
  ss_stop st = None ->
  ss_rest st = join_lines lines ++ rest ->
  Forall (fits (streamScanner ctx resp)) lines ->
  run (readStream resp) l (Some r) /\ follows st l <->
  exists l',
    l = scanned_lines (streamScanner ctx resp) lines ++ l' /\
    run (readStream resp) l' (Some r) /\
    forall tok, follows (scan_token st tok rest) l'.
Proof.
  intros Hs Hr Hfit. split.
  - intros [Hrun Hfol]. rewrite readStream_finish in Hrun.
    destruct (@read_lines _ (finish resp) _ lines st rest l r
                          Hs Hr Hfit Hrun Hfol)
      as (tok & l' & -> & Hrun' & Hfol').
    exists l'. repeat split; try assumption.
    intros tok'. clear - Hfol' Hrun'.
    destruct l' as [|ev l']; [exact I|].
    destruct (run_read_first _ _ Hrun') as (more & ->).
    cbn [follows] in *. rewrite (bufio_Scan_token _ _ tok' tok). exact Hfol'.
  - intros (l' & -> & Hrun & Hfol). split.
    + rewrite readStream_finish in *.
      apply (read_lines_run (finish resp)). exact Hrun.
    + apply (@read_lines_follows _ lines st rest l' Hs Hr Hfit). exact Hfol.
Qed.


(** The input ends with a line that has no newline. *)
Lemma last_line resp st last l r :
  ss_stop st = None ->
  ss_rest st = last ->
  last <> [] ->
  fits (streamScanner ctx resp) last ->
  run (readStream resp) l (Some r) /\ follows st l <->
  exists l',
    l = scanned (streamScanner ctx resp) (dropCR last) ++ l' /\
    run (readStream resp) l' (Some r) /\
    follows (scan_token st (dropCR last) []) l'.
Proof.
  intros Hs Hr Hne [Hn Hlen].
  pose proof (@Scan_last (streamScanner ctx resp) st Hs last Hr Hne Hn Hlen)
    as HScan.
  rewrite readStream_finish. split.
  - intros [Hrun Hfol].
    destruct l as [|ev l]; [apply run_read_nil in Hrun; discriminate|].
    destruct (run_read_first _ _ Hrun) as (more & ->).
    cbn in Hfol. rewrite HScan in Hfol. cbn in Hfol. destruct Hfol as [-> Hfol].
    apply run_read_more in Hrun. destruct Hrun as (line' & l' & Hl & Hrun).
    rewrite Hl. unfold scanned in Hl. cbn [app] in Hl.
    injection Hl as Hl. subst l.
    cbn in Hfol. destruct Hfol as [-> Hfol]. rewrite follows_deliver in Hfol.
    exists l'. auto.
  - intros (l' & -> & Hrun & Hfol). split.
    + apply run_read_scanned. exact Hrun.
    + apply follows_scanned. rewrite HScan. cbn. auto.
Qed.

(** All lines fit: the read loop hands out every line and [Connect] returns
    how the reader ended. *)
Lemma stream_fits resp s lines last l r :
  st_data s = join_lines lines ++ last ->
  Forall (fits (streamScanner ctx resp)) lines ->
  fits (streamScanner ctx resp) last ->
  run (readStream resp) l (Some r) /\ follows (scan_init s) l <->
  l = scanned_lines (streamScanner ctx resp) (lines ++ final last) ++
      finished resp (end_error (st_end s)) /\
  r = end_error (st_end s).
Proof.
  intros Hdata Hfit Hlast.
  rewrite (@lines_first resp (scan_init s) lines last l r eq_refl Hdata Hfit).
  rewrite scanned_lines_app, <- app_assoc.
  destruct last as [|b last].
  - cbn [final scanned_lines flat_map app]. split.
    + intros (l' & -> & Hrun & Hfol).
      destruct (proj1 (@end_of_input resp (scan_token (scan_init s) [] [])
                                     l' r eq_refl eq_refl)
                      (conj Hrun (Hfol [])))
        as [-> ->].
      auto.
    + intros [-> ->]. eexists. split; [reflexivity|].
      split.
      * apply readStream_complete. exists []. reflexivity.
      * intros tok.
        apply (proj2 (@end_of_input resp (scan_token (scan_init s) tok [])
                        (finished resp (end_error (st_end s)))
                        (end_error (st_end s)) eq_refl eq_refl)
                     (conj eq_refl eq_refl)).
  - assert (Hne : b :: last <> []) by discriminate.
    cbn [final]. split.
    + intros (l' & -> & Hrun & Hfol).
      destruct (proj1 (@last_line resp (scan_token (scan_init s) [] (b :: last))
                                  (b :: last) l' r eq_refl eq_refl Hne Hlast)
                      (conj Hrun (Hfol [])))
        as (l'' & -> & Hrun' & Hfol').
      destruct (proj1 (@end_of_input resp
                         (scan_token (scan_token (scan_init s) [] (b :: last))
                                     (dropCR (b :: last)) [])
                         l'' r eq_refl eq_refl)
                      (conj Hrun' Hfol'))
        as [-> ->].
      rewrite scanned_lines_cons. cbn [scanned_lines flat_map].
      rewrite app_nil_r. auto.
    + intros [-> ->]. eexists. split; [reflexivity|].
      rewrite scanned_lines_cons. cbn [scanned_lines flat_map].
      rewrite app_nil_r.
      assert (Hend : forall tok,
        run (readStream resp) (finished resp (end_error (st_end s)))
            (Some (end_error (st_end s))) /\
        follows (scan_token (scan_token (scan_init s) tok (b :: last))
                            (dropCR (b :: last)) [])
                (finished resp (end_error (st_end s)))).
      { intros tok.
        apply (proj2 (@end_of_input resp
                 (scan_token (scan_token (scan_init s) tok (b :: last))
                             (dropCR (b :: last)) [])
                 (finished resp (end_error (st_end s)))
                 (end_error (st_end s)) eq_refl eq_refl)
                 (conj eq_refl eq_refl)). }
      split.
      * rewrite readStream_finish. apply run_read_scanned.
        apply (proj1 (Hend [])).
      * intros tok.
        apply (proj2 (@last_line resp (scan_token (scan_init s) tok (b :: last))
                        (b :: last)
                        (scanned (streamScanner ctx resp) (dropCR (b :: last)) ++
                         finished resp (end_error (st_end s)))
                        (end_error (st_end s)) eq_refl eq_refl Hne Hlast)).
        eexists. split; [reflexivity|]. apply Hend.
Qed.

(** A line that does not fit comes after lines that do. *)
Lemma stream_too_long resp s lines long tail l r :
  st_data s = join_lines lines ++ long ++ tail ->
  Forall (fits (streamScanner ctx resp)) lines ->
  ~ In x0a long ->
  (1024 * 1024 * 100 < Z.of_nat (List.length long))%Z ->
  run (readStream resp) l (Some r) /\ follows (scan_init s) l <->
  l = scanned_lines (streamScanner ctx resp) lines ++
      finished resp (Some bufio_ErrTooLong) /\
  r = Some bufio_ErrTooLong.
Proof.
  intros Hdata Hfit Hn Hlen.
  rewrite (@lines_first resp (scan_init s) lines (long ++ tail) l r
                        eq_refl Hdata Hfit).
  split.
  - intros (l' & -> & Hrun & Hfol).
    destruct (proj1 (@line_too_long resp
                       (scan_token (scan_init s) [] (long ++ tail))
                       long tail l' r eq_refl eq_refl Hn Hlen)
                    (conj Hrun (Hfol [])))
      as [-> ->].
    auto.
  - intros [-> ->]. eexists. split; [reflexivity|]. split.
    + apply readStream_complete. exists []. reflexivity.
    + intros tok.
      apply (proj2 (@line_too_long resp
                      (scan_token (scan_init s) tok (long ++ tail))
                      long tail (finished resp (Some bufio_ErrTooLong))
                      (Some bufio_ErrTooLong) eq_refl eq_refl Hn Hlen)
                   (conj eq_refl eq_refl)).
Qed.


(** ** How the stream ends *)

(** C3.  The connection was made.  Every further call is one of the read
    loop and of its end: nothing looks up, starts, connects or removes a
    registration again.  [Connect] returns what [Err] reports once [Scan]
    has said no, whatever that is, and the finished executions are these.
    Against a stream whose lines fit the buffer there is one finished
    execution: it scans the lines, closes the body and returns nil when the
    reader ends with [io.EOF], and the reader's error when it ends with
    one. *)
Theorem C3_stream_end pre url resp :
  run (Connect ctx input) (pre ++ [http_Get url |-> (resp, None)]) None ->
  (forall l o,
      run (Connect ctx input)
          (pre ++ (http_Get url |-> (resp, None)) :: l) o ->
      Forall reading l) /\
  (forall l r,
      run (Connect ctx input)
          (pre ++ (http_Get url |-> (resp, None)) :: l) (Some r) <->
      exists lines,
        l = flat_map (scanned (streamScanner ctx resp)) lines ++
            finished resp r) /\
  (forall s lines last,
      st_data s = join_lines lines ++ last ->
      Forall (fits (streamScanner ctx resp)) lines ->
      fits (streamScanner ctx resp) last ->
      (st_end s = io_EOF ->
       forall l r,
         run (Connect ctx input)
             (pre ++ (http_Get url |-> (resp, None)) :: l) (Some r) /\
         follows (scan_init s) l <->
         l = scanned_lines (streamScanner ctx resp) (lines ++ final last) ++
             finished resp None /\
         r = None) /\
      (forall e,
          st_end s = io_err e ->
          forall l r,
            run (Connect ctx input)
                (pre ++ (http_Get url |-> (resp, None)) :: l) (Some r) /\
            follows (scan_init s) l <->
            l = scanned_lines (streamScanner ctx resp) (lines ++ final last) ++
                finished resp (Some e) /\
            r = Some e)).
Proof.
  intros Hpre. split; [|split].
  - intros l o H. rewrite (@run_Connect_get _ _ _ _ Hpre) in H.
    exact (@readStream_reading resp _ _ H).
  - intros l r. rewrite (@run_Connect_get _ _ _ _ Hpre).
    apply readStream_complete.
  - intros s lines last Hdata Hfit Hlast. split.
    + intros Hend l r. rewrite (@run_Connect_get _ _ _ _ Hpre).
      rewrite (@stream_fits resp s lines last l r Hdata Hfit Hlast).
      rewrite Hend. reflexivity.
    + intros e Hend l r. rewrite (@run_Connect_get _ _ _ _ Hpre).
      rewrite (@stream_fits resp s lines last l r Hdata Hfit Hlast).
      rewrite Hend. reflexivity.
Qed.

(** ** Lines that do not decode *)

(** C4.  The stream has the line [bad], which does not decode, between the
    lines [lines1] and the lines [lines2]; all lines fit.  The one finished
    execution against this stream scans every line: for [bad] there are the
    calls of [Scan] and [Bytes] and no call of the handler, and the loop goes
    on with [lines2].  The handler gets the events of [lines1] and then those
    of [lines2]. *)
Theorem C4_malformed_line_skipped pre url resp s lines1 bad lines2 last :
  run (Connect ctx input) (pre ++ [http_Get url |-> (resp, None)]) None ->
  st_data s = join_lines (lines1 ++ bad :: lines2) ++ last ->
  Forall (fits (streamScanner ctx resp)) (lines1 ++ bad :: lines2) ->
  fits (streamScanner ctx resp) last ->
  snd (json_Unmarshal (dropCR bad) Event_zero) <> None ->
  let sc := streamScanner ctx resp in
  let calls :=
    scanned_lines sc lines1 ++
    [Scanner_Scan sc |-> true; Scanner_Bytes sc |-> dropCR bad] ++
    scanned_lines sc (lines2 ++ final last) ++
    finished resp (end_error (st_end s)) in
  (forall l r,
      run (Connect ctx input)
          (pre ++ (http_Get url |-> (resp, None)) :: l) (Some r) /\
      follows (scan_init s) l <->
      l = calls /\ r = end_error (st_end s)) /\
  handled calls = decoded lines1 ++ decoded (lines2 ++ final last).
Proof.
  intros Hpre Hdata Hfit Hlast Hbad sc calls.
  assert (Hcalls : calls =
            scanned_lines sc ((lines1 ++ bad :: lines2) ++ final last) ++
            finished resp (end_error (st_end s))).
  { subst calls. rewrite <- app_assoc. cbn [app].
    rewrite (scanned_lines_app sc lines1), scanned_lines_cons.
    rewrite <- !app_assoc. f_equal.
    unfold scanned at 1, deliver.
    destruct (json_Unmarshal (dropCR bad) Event_zero) as [event [e|]];
      [reflexivity | contradiction Hbad; reflexivity]. }
  split.
  - intros l r. rewrite (@run_Connect_get _ _ _ _ Hpre).
    rewrite (@stream_fits resp s _ last l r Hdata Hfit Hlast).
    rewrite Hcalls. reflexivity.
  - subst calls. rewrite !handled_app, !handled_scanned_lines. cbn.
    rewrite app_nil_r. reflexivity.
Qed.

(** ** A line that does not fit *)

(** C5.  After lines that fit, the stream has a line of more than
    1024*1024*100 bytes ([long] is that line, or its beginning).  The one
    finished execution against this stream scans the lines before it; then
    [Scan] says no, [Err] reports [ErrTooLong], the body is closed and
    [Connect] returns [ErrTooLong].  No part of the long line and nothing
    after it reaches the handler. *)
Theorem C5_oversized_line pre url resp s lines long tail :
  run (Connect ctx input) (pre ++ [http_Get url |-> (resp, None)]) None ->
  st_data s = join_lines lines ++ long ++ tail ->
  Forall (fits (streamScanner ctx resp)) lines ->
  ~ In x0a long ->
  (1024 * 1024 * 100 < Z.of_nat (List.length long))%Z ->
  let calls :=
    scanned_lines (streamScanner ctx resp) lines ++
    finished resp (Some bufio_ErrTooLong) in
  (forall l r,
      run (Connect ctx input)
          (pre ++ (http_Get url |-> (resp, None)) :: l) (Some r) /\
      follows (scan_init s) l <->
      l = calls /\ r = Some bufio_ErrTooLong) /\
  handled calls = decoded lines.
Proof.
  intros Hpre Hdata Hfit Hn Hlen calls. split.
  - intros l r. rewrite (@run_Connect_get _ _ _ _ Hpre).
    exact (@stream_too_long resp s lines long tail l r Hdata Hfit Hn Hlen).
  - subst calls. rewrite handled_app, handled_scanned_lines. cbn.
    apply app_nil_r.
Qed.

(** ** Events in order *)

Lemma scanned_lines_delivered sc lines events :
  Forall2 (fun line event =>
             json_Unmarshal (dropCR line) Event_zero = (event, None))
          lines events ->
  scanned_lines sc lines = delivered sc lines events /\
  decoded lines = events.
Proof.
  induction 1 as [|line event lines events Hd _ [IH1 IH2]]; [split; reflexivity|].
  split.
  - rewrite scanned_lines_cons, IH1. unfold delivered. cbn [combine flat_map].
    unfold scanned, deliver. rewrite Hd. reflexivity.
  - unfold decoded. cbn [flat_map]. fold (decoded lines). rewrite Hd, IH2.
    reflexivity.
Qed.

(** C6.  The stream is [lines], each with its newline, then [io.EOF]; the
    lines fit and decode to [events], one each.  The one finished execution
    against this stream is, line after line, [Scan], [Bytes] and the call of
    the handler with the event of that line, the handler having answered
    before the next [Scan]; then [Scan] says no and [Connect] returns nil.
    The handler gets [events], as many as there are lines and in their
    order. *)
Theorem C6_events_delivered pre url resp s lines events :
  run (Connect ctx input) (pre ++ [http_Get url |-> (resp, None)]) None ->
  st_data s = join_lines lines ->
  st_end s = io_EOF ->
  Forall (fits (streamScanner ctx resp)) lines ->
  Forall2 (fun line event =>
             json_Unmarshal (dropCR line) Event_zero = (event, None))
          lines events ->
  let calls :=
    delivered (streamScanner ctx resp) lines events ++ finished resp None in
  (forall l r,
      run (Connect ctx input)
          (pre ++ (http_Get url |-> (resp, None)) :: l) (Some r) /\
      follows (scan_init s) l <->
      l = calls /\ r = None) /\
  handled calls = events /\
  List.length events = List.length lines.
Proof.
  intros Hpre Hdata Hend Hfit Hdec calls.
  destruct (scanned_lines_delivered (streamScanner ctx resp) Hdec) as [Hsc Hev].
  assert (Hlast : fits (streamScanner ctx resp) []).
  { split; [intros [] | rewrite streamScanner_limit; cbn; lia]. }
  rewrite <- (app_nil_r (join_lines lines)) in Hdata.
  split; [|split].
  - intros l r. rewrite (@run_Connect_get _ _ _ _ Hpre).
    rewrite (@stream_fits resp s lines [] l r Hdata Hfit Hlast).
    rewrite Hend. cbn [final end_error]. rewrite app_nil_r, Hsc. reflexivity.
  - subst calls. rewrite <- Hsc, handled_app, handled_scanned_lines. cbn.
    rewrite app_nil_r. exact Hev.
  - symmetry. eapply Forall2_length. exact Hdec.
Qed.

(** * More about the find-or-start phase *)

(** ** How the loop of line 48 is left *)

Lemma run_wait_first R (k : option error + string -> itree connectE R)
      cmd ev l o :
  run (r <- waitForServer input cmd;; k r) (ev :: l) o ->
  exists addr err, ev = lookup (addr, err).
Proof.
  unfold waitForServer. rewrite unfold_iter. rewrite !bind_bind.
  rewrite run_call_cons. intros ([addr err] & -> & _). exists addr, err.
  reflexivity.
Qed.

(** A finished execution that went through the loop: turns in which the
    timer fired, then the exit of the process or a registered address. *)
Lemma wait_complete R (k : option error + string -> itree connectE R)
      cmd l (y : R) :
  run (r <- waitForServer input cmd;; k r) l (Some y) ->
  exists errs err l',
    (exists w,
        l = polled cmd errs ++
            lookup ("", err) :: selected cmd (recv_cmdExited w) :: l' /\
        run (k (inl w)) l' (Some y)) \/
    (exists addr,
        addr <> "" /\
        l = polled cmd errs ++ lookup (addr, err) :: l' /\
        run (k (inr addr)) l' (Some y)).
Proof.
  remember (List.length l) as n eqn:Hn. revert l Hn.
  induction n as [n IH] using lt_wf_ind. intros l Hn H.
  destruct l as [|ev l]; [apply run_wait_nil in H; discriminate|].
  destruct (run_wait_first _ _ H) as (addr & err & ->).
  destruct (String.eqb_spec addr "") as [-> | Haddr].
  - destruct l as [|ev l].
    { apply run_wait_turn in H. cbn [String.eqb negb] in H.
      apply run_call_nil in H. discriminate. }
    destruct (run_wait_miss _ _ H) as ([w|] & ->).
    + apply run_wait_exit in H. exists [], err, l. left. exists w. auto.
    + apply run_wait_tick in H.
      assert (Hlen : (List.length l < n)%nat) by (subst n; cbn; lia).
      destruct (IH _ Hlen l eq_refl H) as (errs & err' & l' & Hcase).
      exists (err :: errs), err', l'.
      destruct Hcase as [(w & -> & Hk) | (addr & Haddr & -> & Hk)].
      * left. exists w. auto.
      * right. exists addr. auto.
  - apply run_wait_hit in H; [|exact Haddr].
    exists [], err, l. right. exists addr. auto.
Qed.

(** ** How the find-or-start phase ends *)

Lemma run_Ret_Some R (r x : R) (l : list (event connectE)) :
  run (Ret r) l (Some x) -> l = [] /\ x = r.
Proof.
  intros H. apply run_Ret in H. destruct H as [-> [H|H]]; [discriminate|].
  injection H as ->. auto.
Qed.

Lemma findOrStart_complete l x :
  run (findOrStart input) l (Some x) ->
  match x with
  | inl r => gave_up l r
  | inr addr => reached l addr
  end.
Proof.
  intros H.
  assert (H' : run (r <- findOrStart input;; Ret r) l (Some x))
    by (rewrite bind_ret_r; exact H).
  clear H. rename H' into H.
  destruct l as [|ev l].
  { unfold findOrStart in H. rewrite bind_bind in H.
    apply run_call_nil in H. discriminate. }
  assert (Hev : exists addr err, ev = lookup (addr, err)).
  { unfold findOrStart in H. rewrite bind_bind in H.
    apply run_call_cons in H. destruct H as ([addr err] & -> & _).
    exists addr, err. reflexivity. }
  destruct Hev as (addr & err & ->).
  apply run_findOrStart_lookup in H. destruct err as [e|].
  { rewrite bind_ret_l in H. apply run_Ret_Some in H. destruct H as [-> ->].
    left. exists addr, e. auto. }
  destruct (String.eqb_spec addr "") as [Heq | Haddr].
  2:{ rewrite bind_ret_l in H. apply run_Ret_Some in H. destruct H as [-> ->].
      split; [exact Haddr|]. left. reflexivity. }
  subst addr.
  unfold startServer in H. rewrite !bind_bind in H.
  destruct l as [|ev l]; [apply run_call_nil in H; discriminate|].
  apply run_call_cons in H. destruct H as ([] & -> & H).
  rewrite !bind_bind in H.
  destruct l as [|ev l]; [apply run_call_nil in H; discriminate|].
  apply run_call_cons in H. destruct H as ([exe [e|]] & -> & H).
  { rewrite bind_ret_l in H. apply run_Ret_Some in H. destruct H as [-> ->].
    right. left. exists exe, e. auto. }
  rewrite !bind_bind in H.
  destruct l as [|ev l]; [apply run_call_nil in H; discriminate|].
  apply run_call_cons in H. destruct H as (env & -> & H).
  rewrite !bind_bind in H.
  destruct l as [|ev l]; [apply run_call_nil in H; discriminate|].
  apply run_call_cons in H. destruct H as ([e|] & -> & H).
  { rewrite bind_ret_l in H. apply run_Ret_Some in H. destruct H as [-> ->].
    right. right. left. exists exe, env, e. auto. }
  rewrite !bind_bind in H.
  destruct l as [|ev l]; [apply run_call_nil in H; discriminate|].
  apply run_call_cons in H. destruct H as ([] & -> & H).
  rewrite !bind_bind in H.
  apply wait_complete in H.
  destruct H as (errs & err & l' &
                 [(w & -> & H) | (addr & Haddr & -> & H)]).
  - rewrite bind_ret_l in H. apply run_Ret_Some in H. destruct H as [-> ->].
    right. right. right. left. exists exe, env, errs, err. reflexivity.
  - destruct l' as [|ev l'].
    { unfold release in H. rewrite !bind_bind in H.
      apply run_call_nil in H. discriminate. }
    apply run_release in H. destruct H as ([e|] & -> & H).
    + apply run_Ret_Some in H. destruct H as [-> ->].
      right. right. right. right. exists exe, env, errs, addr, err, e. auto.
    + apply run_Ret_Some in H. destruct H as [-> ->].
      split; [exact Haddr|]. right. exists exe, env, errs, err. reflexivity.
Qed.

(** * What comes before each call *)

Lemma after_trigger R X h (P : list (event connectE) -> event connectE -> Prop)
      (e : connectE X) (k : X -> itree connectE R) :
  (forall x, P h (e |-> x)) ->
  (forall x, after ((e |-> x) :: h) P (k x)) ->
  after h P (x <- trigger e;; k x).
Proof. apply after_call. Qed.

Lemma wait_last cmd l addr :
  run (waitForServer input cmd) l (Some (inr addr)) ->
  addr <> "" /\ exists l0 err, l = l0 ++ [lookup (addr, err)].
Proof.
  intros H.
  assert (H' : run (r <- waitForServer input cmd;; Ret r) l (Some (inr addr)))
    by (rewrite bind_ret_r; exact H).
  apply wait_complete in H'.
  destruct H' as (errs & err & l' &
                  [(w & -> & H') | (addr' & Haddr & -> & H')]);
    apply run_Ret_Some in H'; destruct H' as [-> Heq]; [discriminate|].
  injection Heq as ->. split; [exact Haddr|].
  exists (polled cmd errs), err. reflexivity.
Qed.

Lemma read_last sc l :
  run (readEvents input sc) l (Some tt) ->
  exists l0, l = l0 ++ [Scanner_Scan sc |-> false].
Proof.
  intros H.
  assert (H' : run (readEvents input sc;; Ret tt) l (Some tt)).
  { eapply run_eutt; [| reflexivity | reflexivity | exact H].
    rewrite <- (bind_ret_r (readEvents input sc)) at 2.
    apply eutt_eq_bind. intros []. reflexivity. }
  apply read_complete in H'. destruct H' as (lines & l' & -> & H').
  apply run_Ret_Some in H'. destruct H' as [-> _]. eexists. reflexivity.
Qed.

Lemma waitForServer_caused cmd h : after h caused (waitForServer input cmd).
Proof.
  revert h. unfold waitForServer.
  refine (fun h => after_iter _ _ _ h tt).
  - intros h' _. apply after_trigger; [intros; split; reflexivity|].
    intros [addr err]. destruct (String.eqb_spec addr "") as [Heq | Haddr];
      cbn [negb]; [subst addr | apply after_Ret].
    apply after_trigger.
    + intros s. split; [reflexivity|]. exists err, h'. reflexivity.
    + intros [e|]; apply after_Ret.
  - intros _ l i' H. destruct l; [|discriminate].
    apply run_call_nil in H. discriminate.
Qed.

Lemma startServer_caused h :
  after (lookup ("", None) :: h) caused (startServer input).
Proof.
  unfold startServer.
  apply after_trigger; [intros; left; split; [reflexivity | eauto]|].
  intros [].
  apply after_trigger; [intros; eexists; reflexivity|].
  intros [exe [e|]]; [apply after_Ret|].
  apply after_trigger; [intros; eexists _, _; reflexivity|]. intros env.
  apply after_trigger; [intros; eexists _, _, _; split; reflexivity|].
  intros [e|]; [apply after_Ret|].
  apply after_trigger; [intros; right; split; [reflexivity | eauto]|].
  intros [].
  apply after_bind; [apply waitForServer_caused|].
  intros l [err|addr] Hl; [apply after_Ret|].
  apply wait_last in Hl. destruct Hl as (Haddr & l0 & err & ->).
  rewrite rev_app_distr. cbn [rev app]. unfold release.
  apply after_trigger; [intros; eexists _, _, _; split; [exact Haddr | reflexivity]|].
  intros [e|]; apply after_Ret.
Qed.

Lemma findOrStart_caused h : after h caused (findOrStart input).
Proof.
  unfold findOrStart. apply after_trigger; [intros; split; reflexivity|].
  intros [addr [e|]]; [apply after_Ret|].
  destruct (String.eqb_spec addr "") as [Heq | Haddr]; [subst addr | apply after_Ret].
  apply startServer_caused.
Qed.

Lemma readEvents_caused sc h : after h caused (readEvents input sc).
Proof.
  revert h. unfold readEvents.
  refine (fun h => after_iter _ _ _ h tt).
  - intros h' _. apply after_trigger; [intros; exact Logic.I|]. intros [|].
    + apply after_trigger; [intros; eexists; reflexivity|]. intros line.
      destruct (json_Unmarshal line Event_zero) as [event [e|]] eqn:Hdec;
        [apply after_Ret|].
      apply after_trigger; [|intros; apply after_Ret].
      intros []. split; [reflexivity|]. eexists _, _, _.
      split; [reflexivity | exact Hdec].
    + apply after_Ret.
  - intros _ l i' H. destruct l; [|discriminate].
    apply run_call_nil in H. discriminate.
Qed.

Lemma readStream_caused resp h : after h caused (readStream resp).
Proof.
  unfold readStream. apply after_bind; [apply readEvents_caused|].
  intros l [] Hl. apply read_last in Hl. destruct Hl as (l0 & ->).
  rewrite rev_app_distr. cbn [rev app].
  apply after_trigger; [intros; eexists; reflexivity|]. intros ret.
  apply after_trigger; [|intros; apply after_Ret].
  intros []. eexists _, _, _. split; reflexivity.
Qed.

(** Every call of every execution of [Connect] comes after the calls that
    [caused] names. *)
Lemma Connect_caused h : after h caused (Connect ctx input).
Proof.
  intros l. remember (List.length l) as n eqn:Hn. revert h l Hn.
  induction n as [n IH] using lt_wf_ind. intros h l Hn o H.
  rewrite Connect_run in H. unfold Connect_body in H.
  apply run_bind_inv in H.
  destruct H as [[-> H] | (l1 & l2 & x & -> & H1 & H2)].
  { exact (@findOrStart_caused h _ _ H). }
  apply each_after_app. split; [exact (@findOrStart_caused h _ _ H1)|].
  destruct x as [e|addr].
  { apply run_Ret in H2. destruct H2 as [-> _]. exact Logic.I. }
  apply findOrStart_complete in H1. destruct H1 as [Haddr Hl1].
  destruct l2 as [|ev l2]; [exact Logic.I|].
  apply run_attach in H2. destruct H2 as (resp & err & -> & H2).
  split.
  { exists addr. split; [reflexivity|]. split; [exact Haddr|].
    destruct Hl1 as [-> | (exe & env & errs & err' & ->)].
    - left. eexists. reflexivity.
    - right. rewrite !rev_app_distr. cbn [rev app]. eexists _, _, _.
      reflexivity. }
  destruct err as [e|].
  - destruct l2 as [|ev l2]; [exact Logic.I|].
    apply run_call_cons in H2. destruct H2 as ([] & -> & H2). split.
    { split; [reflexivity|]. split; [reflexivity|]. eexists _, _, _, _.
      reflexivity. }
    apply (IH (List.length l2)) with (o := o); [|reflexivity|exact H2].
    subst n. rewrite List.length_app. cbn. lia.
  - exact (@readStream_caused resp _ _ _ H2).
Qed.

Lemma rev_eq_cons A (l : list A) a h : rev l = a :: h -> l = rev h ++ [a].
Proof.
  intros H. apply (f_equal (@rev A)) in H. rewrite rev_involutive in H.
  exact H.
Qed.

Lemma rev_eq_cons2 A (l : list A) a b h :
  rev l = a :: b :: h -> l = rev h ++ [b; a].
Proof.
  intros H. apply rev_eq_cons in H. subst l. cbn [rev].
  rewrite <- app_assoc. reflexivity.
Qed.

(** What [caused] says of the call at a place of an execution. *)
Lemma Connect_caused_at l1 ev l2 o :
  run (Connect ctx input) (l1 ++ ev :: l2) o -> caused (rev l1) ev.
Proof. intros H. exact (each_after_at _ _ _ _ (@Connect_caused [] _ _ H)). Qed.

(** X7.  The registration is removed only right after a GET that failed,
    and it is the registration of the pair that [Connect] was called
    with. *)
Theorem X7_removal_only_after_failed_get l1 cfgPath stage l2 o :
  run (Connect ctx input)
      (l1 ++ (cleanupExisting cfgPath stage |-> tt) :: l2) o ->
  cfgPath = CfgPath input /\ stage = Stage input /\
  exists l0 url resp e, l1 = l0 ++ [http_Get url |-> (resp, Some e)].
Proof.
  intros H. apply Connect_caused_at in H.
  destruct H as (-> & -> & url & resp & e & h' & Hh).
  apply rev_eq_cons in Hh. eauto 8.
Qed.

(** X8.  A process is started only right after a lookup found nothing
    registered, and it is this executable with the arguments
    [--stage=<Stage>] and [server], the environment of this process and its
    standard output and error (lines 28-39). *)
Theorem X8_what_is_started l1 cmd r l2 o :
  run (Connect ctx input) (l1 ++ (Cmd_Start cmd |-> r) :: l2) o ->
  exists l0 exe env,
    l1 = l0 ++
         [ lookup ("", None);
           slog_Info "no existing server found, starting new one" |-> tt;
           os_Executable |-> (exe, None);
           os_Environ |-> env ] /\
    Path cmd = exe /\
    Args cmd = [exe; ("--stage=" ++ Stage input)%string; "server"] /\
    Env cmd = env /\
    Stdout cmd = Some os_Stdout /\ Stderr cmd = Some os_Stderr.
Proof.
  intros H. pose proof (Connect_caused_at _ _ _ H) as Hc.
  destruct Hc as (exe & env & h' & Hh & ->).
  apply rev_eq_cons2 in Hh. subst l1.
  rewrite <- app_assoc in H. cbn [app] in H.
  apply Connect_caused_at in H. destruct H as (h'' & Hh).
  apply rev_eq_cons2 in Hh. rewrite Hh.
  exists (rev h''), exe, env. rewrite <- app_assoc.
  repeat split; reflexivity.
Qed.

(** X9.  The handler is called only right after [Bytes] handed out a line,
    with the event that [json.Unmarshal] made of that line from an empty
    [Event], and it is the handler that [Connect] was called with. *)
Theorem X9_handler_gets_decoded_line l1 i event l2 o :
  run (Connect ctx input) (l1 ++ (input_OnEvent i event |-> tt) :: l2) o ->
  i = input /\
  exists l0 sc line,
    l1 = l0 ++ [Scanner_Scan sc |-> true; Scanner_Bytes sc |-> line] /\
    json_Unmarshal line Event_zero = (event, None).
Proof.
  intros H. pose proof (Connect_caused_at _ _ _ H) as Hc.
  destruct Hc as (-> & sc & line & h' & Hh & Hdec).
  apply rev_eq_cons in Hh. subst l1.
  rewrite <- app_assoc in H. cbn [app] in H.
  apply Connect_caused_at in H. destruct H as (h'' & Hh).
  apply rev_eq_cons in Hh. rewrite Hh.
  split; [reflexivity|]. exists (rev h''), sc, line.
  rewrite <- app_assoc. auto.
Qed.

(** X10.  A GET goes to [http://<addr>/stream] for the address that the
    registry has just given: at a lookup without error right before the
    GET, or at the lookup of the loop right before the release of the
    started process. *)
Theorem X10_get_goes_to_registered_address l1 url ans l2 o :
  run (Connect ctx input) (l1 ++ (http_Get url |-> ans) :: l2) o ->
  exists addr l0,
    addr <> "" /\ url = streamURL addr /\
    (l1 = l0 ++ [lookup (addr, None)] \/
     exists cmd err,
       l1 = l0 ++ [lookup (addr, err); Process_Release cmd |-> None]).
Proof.
  intros H. apply Connect_caused_at in H.
  destruct H as (addr & -> & Haddr & [(h' & Hh) | (cmd & err & h' & Hh)]).
  - apply rev_eq_cons in Hh. exists addr, (rev h'). auto.
  - apply rev_eq_cons2 in Hh. exists addr, (rev h'). eauto 6.
Qed.

(** X11.  The started process is released only right after a lookup gave an
    address; and [Connect] waits for the exit of the process or the timer,
    always of 100 ms, only right after a lookup gave none. *)
Theorem X11_release_and_wait_follow_lookup :
  (forall l1 cmd r l2 o,
      run (Connect ctx input) (l1 ++ (Process_Release cmd |-> r) :: l2) o ->
      exists l0 addr err, addr <> "" /\ l1 = l0 ++ [lookup (addr, err)]) /\
  (forall l1 cmd d r l2 o,
      run (Connect ctx input)
          (l1 ++ (select_cmdExited_After cmd d |-> r) :: l2) o ->
      d = (100 * time_Millisecond)%Z /\
      exists l0 err, l1 = l0 ++ [lookup ("", err)]).
Proof.
  split.
  - intros l1 cmd r l2 o H. apply Connect_caused_at in H.
    destruct H as (addr & err & h' & Haddr & Hh).
    apply rev_eq_cons in Hh. eauto 6.
  - intros l1 cmd d r l2 o H. apply Connect_caused_at in H.
    destruct H as (-> & err & h' & Hh).
    apply rev_eq_cons in Hh. eauto.
Qed.

(** X12.  The scanner is used in the order it asks for: [Bytes] is called
    only right after [Scan] said yes, [Err] only right after [Scan] said no,
    both on the same scanner; and the body that is closed is the one under
    the scanner whose [Err] was just read. *)
Theorem X12_scanner_calls_in_order :
  (forall l1 sc line l2 o,
      run (Connect ctx input) (l1 ++ (Scanner_Bytes sc |-> line) :: l2) o ->
      exists l0, l1 = l0 ++ [Scanner_Scan sc |-> true]) /\
  (forall l1 sc err l2 o,
      run (Connect ctx input) (l1 ++ (Scanner_Err sc |-> err) :: l2) o ->
      exists l0, l1 = l0 ++ [Scanner_Scan sc |-> false]) /\
  (forall l1 b l2 o,
      run (Connect ctx input) (l1 ++ (Body_Close b |-> tt) :: l2) o ->
      exists l0 sc err,
        l1 = l0 ++ [Scanner_Scan sc |-> false; Scanner_Err sc |-> err] /\
        rd_src (sc_r sc) = b).
Proof.
  split; [|split].
  - intros l1 sc line l2 o H. apply Connect_caused_at in H.
    destruct H as (h' & Hh). apply rev_eq_cons in Hh. eauto.
  - intros l1 sc err l2 o H. apply Connect_caused_at in H.
    destruct H as (h' & Hh). apply rev_eq_cons in Hh. eauto.
  - intros l1 b l2 o H. pose proof (Connect_caused_at _ _ _ H) as Hc.
    destruct Hc as (sc & err & h' & Hh & ->).
    apply rev_eq_cons in Hh. subst l1.
    rewrite <- app_assoc in H. cbn [app] in H.
    apply Connect_caused_at in H. destruct H as (h'' & Hh).
    apply rev_eq_cons in Hh. rewrite Hh.
    exists (rev h''), sc, err. rewrite <- app_assoc. auto.
Qed.

(** * Returning without a connection *)

Lemma run_Connect_no_executable exe e l o :
  run (Connect ctx input)
      (lookup ("", None) ::
       (slog_Info "no existing server found, starting new one" |-> tt) ::
       (os_Executable |-> (exe, Some e)) :: l) o <->
  l = [] /\ (o = None \/ o = Some (Some e)).
Proof.
  rewrite Connect_run. unfold Connect_body.
  rewrite run_findOrStart_lookup. cbn [String.eqb].
  unfold startServer. rewrite !bind_bind.
  rewrite run_call_same. rewrite !bind_bind. rewrite run_call_same.
  rewrite !bind_ret_l. apply run_Ret.
Qed.

Lemma run_Connect_no_start exe env e l o :
  run (Connect ctx input)
      (lookup ("", None) ::
       (slog_Info "no existing server found, starting new one" |-> tt) ::
       (os_Executable |-> (exe, None)) ::
       (os_Environ |-> env) ::
       (Cmd_Start (serverCmd input exe env) |-> Some e) :: l) o <->
  l = [] /\ (o = None \/ o = Some (Some e)).
Proof.
  rewrite Connect_run. unfold Connect_body.
  rewrite run_findOrStart_lookup. cbn [String.eqb].
  unfold startServer. rewrite !bind_bind.
  rewrite run_call_same. rewrite !bind_bind. rewrite run_call_same.
  rewrite !bind_bind. rewrite run_call_same.
  rewrite !bind_bind. rewrite run_call_same.
  rewrite !bind_ret_l. apply run_Ret.
Qed.

(** X1.  When [os.Executable] fails, or when the process does not start,
    [Connect] returns that error and makes no further call: after a failure
    of [os.Executable] nothing is started, and after a failure of [Start]
    nothing is waited for. *)
Theorem X1_start_errors_returned :
  (forall exe e l o,
      run (Connect ctx input)
          (lookup ("", None) ::
           (slog_Info "no existing server found, starting new one" |-> tt) ::
           (os_Executable |-> (exe, Some e)) :: l) o <->
      l = [] /\ (o = None \/ o = Some (Some e))) /\
  (forall exe env e l o,
      run (Connect ctx input)
          (lookup ("", None) ::
           (slog_Info "no existing server found, starting new one" |-> tt) ::
           (os_Executable |-> (exe, None)) ::
           (os_Environ |-> env) ::
           (Cmd_Start (serverCmd input exe env) |-> Some e) :: l) o <->
      l = [] /\ (o = None \/ o = Some (Some e))).
Proof.
  split.
  - intros. apply run_Connect_no_executable.
  - intros. apply run_Connect_no_start.
Qed.

(** X2.  What the [select] of line 54 received decides how [Connect] goes
    on.  When it received the result [w] of [cmd.Wait], [Connect] returns
    [w] as it is and makes no further call: for a process that exited with
    status 0 that is nil.  When the timer fired, the [break] of line 58
    leaves the [select] only, and the next call is a lookup again. *)
Theorem X2_after_the_select exe env errs err :
  let cmd := serverCmd input exe env in
  let started := spawned exe env ++ polled cmd errs in
  (forall w l o,
      run (Connect ctx input)
          (started ++
           lookup ("", err) :: selected cmd (recv_cmdExited w) :: l) o <->
      l = [] /\ (o = None \/ o = Some w)) /\
  (forall ev l o,
      run (Connect ctx input)
          (started ++
           lookup ("", err) :: selected cmd recv_After :: ev :: l) o ->
      exists r, ev = lookup r).
Proof.
  intros cmd started. subst cmd started. split.
  - intros w l o.
    rewrite <- app_assoc, run_Connect_spawned, run_wait_polled, run_wait_exit.
    apply run_Ret.
  - intros ev l o H.
    rewrite <- app_assoc, run_Connect_spawned, run_wait_polled in H.
    rewrite run_wait_tick in H. apply run_wait_first in H.
    destruct H as (addr & err' & ->). eauto.
Qed.

Lemma polled_no_get cmd errs :
  Forall (fun ev => got ev = None) (polled cmd errs).
Proof.
  induction errs as [|e errs IH]; [constructor|].
  cbn. constructor; [reflexivity|]. constructor; [reflexivity | exact IH].
Qed.

Lemma gave_up_run l r :
  gave_up l r ->
  run (Connect ctx input) l (Some r) /\ Forall (fun ev => got ev = None) l.
Proof.
  intros [(addr & e & -> & ->) |
          [(exe & e & -> & ->) |
           [(exe & env & e & -> & ->) |
            [(exe & env & errs & err & ->) |
             (exe & env & errs & addr & err & e & Haddr & -> & ->)]]]].
  - split; [apply run_Connect_lookup_err; auto|].
    repeat constructor.
  - split; [apply run_Connect_no_executable; auto|].
    repeat constructor.
  - split; [apply run_Connect_no_start; auto|].
    repeat constructor.
  - split.
    + rewrite run_Connect_spawned, run_wait_polled, run_wait_exit.
      apply run_Ret. auto.
    + apply Forall_app. split; [repeat constructor|].
      apply Forall_app. split; [apply polled_no_get | repeat constructor].
  - split.
    + rewrite run_Connect_spawned, run_wait_polled.
      rewrite run_wait_hit by assumption. cbn [afterWait].
      apply run_release. eexists. split; [reflexivity|]. apply run_Ret. auto.
    + apply Forall_app. split; [repeat constructor|].
      apply Forall_app. split; [apply polled_no_get | repeat constructor].
Qed.

(** One pass of a finished execution: [Connect] gives up, or it gets to an
    address and makes the GET; after a failed GET it removes the
    registration and starts again, after a successful one it reads the
    stream. *)
Lemma Connect_complete l r :
  run (Connect ctx input) l (Some r) ->
  gave_up l r \/
  exists pre addr resp err rest,
    reached pre addr /\
    l = pre ++ (http_Get (streamURL addr) |-> (resp, err)) :: rest /\
    match err with
    | Some _ =>
      exists rest',
        rest = (cleanupExisting (CfgPath input) (Stage input) |-> tt) :: rest' /\
        run (Connect ctx input) rest' (Some r)
    | None => run (readStream resp) rest (Some r)
    end.
Proof.
  intros H. rewrite Connect_run in H. unfold Connect_body in H.
  apply run_bind_inv in H.
  destruct H as [[Hn _] | (l1 & l2 & x & -> & H1 & H2)]; [discriminate Hn|].
  apply findOrStart_complete in H1. destruct x as [e|addr].
  - apply run_Ret_Some in H2. destruct H2 as [-> ->].
    rewrite app_nil_r. left. exact H1.
  - right. destruct l2 as [|ev l2]; [apply run_attach_nil in H2; discriminate|].
    apply run_attach in H2. destruct H2 as (resp & err & -> & H2).
    exists l1, addr, resp, err, l2. split; [exact H1|].
    split; [reflexivity|]. destruct err as [e|]; [|exact H2].
    destruct l2 as [|ev l2]; [apply run_call_nil in H2; discriminate|].
    apply run_call_cons in H2. destruct H2 as ([] & -> & H2). eauto.
Qed.

(** X3.  [Connect] returns [r] without having made a GET in exactly five
    ways: the first lookup fails, [os.Executable] fails, the process does
    not start, the process exits before a registration appears ([r] is then
    what [cmd.Wait] reported), or the release of the process fails. *)
Theorem X3_returns_without_a_get l r :
  run (Connect ctx input) l (Some r) /\ Forall (fun ev => got ev = None) l <->
  gave_up l r.
Proof.
  split; [|apply gave_up_run].
  intros [H Hno]. apply Connect_complete in H.
  destruct H as [H | (pre & addr & resp & err & rest & _ & -> & _)];
    [exact H|].
  apply Forall_app in Hno. destruct Hno as [_ Hno].
  apply Forall_inv in Hno. discriminate Hno.
Qed.

(** X4.  Where the value that [Connect] returns comes from: it is the value
    of one of the five ways of giving up, in the last pass, or it is what
    [Err] reported when the scanner stopped on the stream of a successful
    GET.  The error of a failed GET and the error of a line that does not
    decode are not returned. *)
Theorem X4_where_the_result_comes_from l r :
  run (Connect ctx input) l (Some r) ->
  (exists l0 last, l = l0 ++ last /\ gave_up last r) \/
  (exists l0 url resp lines,
      l = l0 ++ (http_Get url |-> (resp, None)) ::
          flat_map (scanned (streamScanner ctx resp)) lines ++
          finished resp r).
Proof.
  remember (List.length l) as n eqn:Hn. revert l Hn.
  induction n as [n IH] using lt_wf_ind. intros l Hn H.
  apply Connect_complete in H.
  destruct H as [H | (pre & addr & resp & err & rest & _ & -> & H)].
  { left. exists [], l. auto. }
  destruct err as [e|].
  - destruct H as (rest' & -> & H).
    assert (Hlen : (List.length rest' < n)%nat).
    { subst n. rewrite List.length_app. cbn. lia. }
    destruct (IH _ Hlen rest' eq_refl H)
      as [(l0 & last & -> & Hg) | (l0 & url & resp' & lines & ->)].
    + left. eexists (pre ++ _ :: _ :: l0), last.
      rewrite <- app_assoc. cbn [app]. auto.
    + right. eexists (pre ++ _ :: _ :: l0), url, resp', lines.
      rewrite <- app_assoc. reflexivity.
  - apply readStream_complete in H. destruct H as (lines & ->).
    right. exists pre, (streamURL addr), resp, lines. reflexivity.
Qed.

(** * How many processes are started *)

Lemma count_app f l1 l2 : count f (l1 ++ l2) = (count f l1 + count f l2)%nat.
Proof. unfold count. rewrite filter_app, List.length_app. reflexivity. Qed.

Lemma count_none f l : Forall (fun ev => f ev = false) l -> count f l = 0%nat.
Proof.
  induction 1 as [|ev l Hev _ IH]; [reflexivity|].
  unfold count in *. cbn [filter]. rewrite Hev. exact IH.
Qed.

Lemma waitForServer_no_start cmd :
  only (fun ev => is_start ev = false) (waitForServer input cmd).
Proof.
  unfold waitForServer. apply only_iter.
  - intros _. apply only_trigger; [reflexivity|]. intros [addr err].
    destruct (negb (addr =? "")); [apply only_Ret|].
    apply only_trigger; [reflexivity|]. intros [e|]; apply only_Ret.
  - intros _ l i' H. destruct l; [|discriminate].
    apply run_call_nil in H. discriminate.
Qed.

Lemma reading_no_start l :
  Forall reading l -> count is_start l = 0%nat.
Proof.
  intros H. apply count_none. eapply Forall_impl; [|exact H].
  intros [X e x]. destruct e; cbn; intros Hr; [contradiction Hr ..| | | | |];
    try reflexivity; contradiction Hr.
Qed.

(** The find-or-start phase starts at most one process. *)
Lemma findOrStart_one_start l o :
  run (findOrStart input) l o -> (count is_start l <= 1)%nat.
Proof.
  intros H. unfold findOrStart in H.
  destruct l as [|ev l]; [cbn; lia|].
  apply run_call_cons in H. destruct H as ([addr [e|]] & -> & H).
  { apply run_Ret in H. destruct H as [-> _]. cbn. lia. }
  destruct (addr =? "").
  2:{ apply run_Ret in H. destruct H as [-> _]. cbn. lia. }
  unfold startServer in H.
  destruct l as [|ev l]; [cbn; lia|].
  apply run_call_cons in H. destruct H as ([] & -> & H).
  destruct l as [|ev l]; [cbn; lia|].
  apply run_call_cons in H. destruct H as ([exe [e|]] & -> & H).
  { apply run_Ret in H. destruct H as [-> _]. cbn. lia. }
  destruct l as [|ev l]; [cbn; lia|].
  apply run_call_cons in H. destruct H as (env & -> & H).
  destruct l as [|ev l]; [cbn; lia|].
  apply run_call_cons in H. destruct H as ([e|] & -> & H).
  { apply run_Ret in H. destruct H as [-> _]. cbn. lia. }
  assert (Hrest : Forall (fun ev => is_start ev = false) l).
  { revert H. apply only_trigger; [reflexivity|]. intros [].
    apply only_bind; [apply waitForServer_no_start|].
    intros [err|addr']; [apply only_Ret|]. unfold release.
    apply only_trigger; [reflexivity|]. intros [e|]; apply only_Ret. }
  apply count_none in Hrest. unfold count in *. cbn. rewrite Hrest. lia.
Qed.

(** X5.  One call of [Connect] starts at most one process more than it has
    removed registrations: a second process is started only after a
    connection failed and the registration was removed. *)
Theorem X5_starts_bounded_by_removals l o :
  run (Connect ctx input) l o ->
  (count is_start l <= 1 + count is_removal l)%nat.
Proof.
  remember (List.length l) as n eqn:Hn. revert l Hn.
  induction n as [n IH] using lt_wf_ind. intros l Hn H.
  rewrite Connect_run in H. unfold Connect_body in H.
  apply run_bind_inv in H.
  destruct H as [[_ H] | (l1 & l2 & x & -> & H1 & H2)].
  { apply findOrStart_one_start in H. lia. }
  apply findOrStart_one_start in H1. rewrite !count_app.
  destruct x as [e|addr].
  { apply run_Ret in H2. destruct H2 as [-> _]. cbn. lia. }
  destruct l2 as [|ev l2]; [cbn; lia|].
  apply run_attach in H2. destruct H2 as (resp & err & -> & H2).
  destruct err as [e|].
  - destruct l2 as [|ev l2]; [cbn; lia|].
    apply run_call_cons in H2. destruct H2 as ([] & -> & H2).
    assert (Hlen : (List.length l2 < n)%nat).
    { subst n. rewrite List.length_app. cbn. lia. }
    specialize (IH _ Hlen l2 eq_refl H2).
    unfold count in *. cbn [filter is_start is_removal List.length]. lia.
  - apply readStream_reading in H2. apply reading_no_start in H2.
    unfold count in *. cbn [filter is_start is_removal List.length]. lia.
Qed.

(** * The handler and the lines *)

Lemma lines_read_app l1 l2 :
  lines_read (l1 ++ l2) = lines_read l1 ++ lines_read l2.
Proof.
  induction l1 as [|[X e x] l1 IH]; [reflexivity|].
  destruct e; cbn; rewrite ?IH; reflexivity.
Qed.

Lemma launching_no_lines l :
  Forall launching l -> handled l = [] /\ lines_read l = [].
Proof.
  induction 1 as [|[X e x] l Hev _ [IH1 IH2]]; [split; reflexivity|].
  destruct e; cbn in Hev; try contradiction; cbn; auto.
Qed.

Lemma scanned_handled sc lines :
  handled (flat_map (scanned sc) lines) = flat_map decodes lines /\
  lines_read (flat_map (scanned sc) lines) = lines.
Proof.
  induction lines as [|line lines [IH1 IH2]]; [split; reflexivity|].
  cbn [flat_map]. rewrite handled_app, lines_read_app, IH1, IH2.
  unfold scanned, deliver, decodes.
  destruct (json_Unmarshal line Event_zero) as [event [e|]];
    split; reflexivity.
Qed.

(** X13.  In every finished execution the events handed to the handler are,
    in order, the events of the lines that [Bytes] handed out and that
    decode: no line that decodes is left out, none is handed over twice,
    and a retry after a failed GET hands over nothing. *)
Theorem X13_handler_gets_every_decoded_line l r :
  run (Connect ctx input) l (Some r) ->
  handled l = flat_map decodes (lines_read l).
Proof.
  remember (List.length l) as n eqn:Hn. revert l Hn.
  induction n as [n IH] using lt_wf_ind. intros l Hn H.
  rewrite Connect_run in H. unfold Connect_body in H.
  apply run_bind_inv in H.
  destruct H as [[Hno _] | (l1 & l2 & x & -> & H1 & H2)]; [discriminate Hno|].
  apply findOrStart_launching in H1. apply launching_no_lines in H1.
  destruct H1 as [Hh Hl]. rewrite handled_app, lines_read_app, Hh, Hl.
  cbn [app]. destruct x as [e|addr].
  { apply run_Ret in H2. destruct H2 as [-> _]. reflexivity. }
  destruct l2 as [|ev l2]; [reflexivity|].
  apply run_attach in H2. destruct H2 as (resp & err & -> & H2).
  destruct err as [e|].
  - destruct l2 as [|ev l2]; [apply run_call_nil in H2; discriminate|].
    apply run_call_cons in H2. destruct H2 as ([] & -> & H2).
    assert (Hlen : (List.length l2 < n)%nat).
    { subst n. rewrite List.length_app. cbn. lia. }
    exact (IH _ Hlen l2 eq_refl H2).
  - apply readStream_complete in H2. destruct H2 as (lines & ->).
    cbn [handled lines_read]. rewrite handled_app, lines_read_app.
    destruct (scanned_handled (streamScanner ctx resp) lines) as [-> ->].
    cbn. rewrite !app_nil_r. reflexivity.
Qed.

(** X14.  Every lookup, also after a retry, asks for the registration of
    the pair that [Connect] was called with. *)
Theorem X14_lookups_use_the_input l1 cfgPath stage r l2 o :
  run (Connect ctx input) (l1 ++ (findExisting cfgPath stage |-> r) :: l2) o ->
  cfgPath = CfgPath input /\ stage = Stage input.
Proof. intros H. apply Connect_caused_at in H. exact H. Qed.

(** X6.  The reader fails with [e] after the lines [lines] and the
    beginning [last] of a line; all of them fit and decode to [events].  The
    one finished execution against this stream hands every one of these
    events to the handler, the one of the line that was cut off included,
    and then returns [e]. *)
Theorem X6_events_before_a_fault pre url resp s lines last events e :
  run (Connect ctx input) (pre ++ [http_Get url |-> (resp, None)]) None ->
  st_data s = join_lines lines ++ last ->
  st_end s = io_err e ->
  Forall (fits (streamScanner ctx resp)) lines ->
  fits (streamScanner ctx resp) last ->
  Forall2 (fun line event =>
             json_Unmarshal (dropCR line) Event_zero = (event, None))
          (lines ++ final last) events ->
  let calls :=
    delivered (streamScanner ctx resp) (lines ++ final last) events ++
    finished resp (Some e) in
  (forall l r,
      run (Connect ctx input)
          (pre ++ (http_Get url |-> (resp, None)) :: l) (Some r) /\
      follows (scan_init s) l <->
      l = calls /\ r = Some e) /\
  handled calls = events.
Proof.
  intros Hpre Hdata Hend Hfit Hlast Hdec calls.
  destruct (scanned_lines_delivered (streamScanner ctx resp) Hdec) as [Hsc Hev].
  split.
  - intros l r. rewrite (@run_Connect_get _ _ _ _ Hpre).
    rewrite (@stream_fits resp s lines last l r Hdata Hfit Hlast).
    rewrite Hend. cbn [end_error]. rewrite Hsc. reflexivity.
  - subst calls. rewrite <- Hsc, handled_app, handled_scanned_lines. cbn.
    rewrite app_nil_r. exact Hev.
Qed.

End Executions.

(** ** The cancellation token *)




End Client.


Arguments findExisting {Event} cfgPath stage.
Arguments cleanupExisting {Event} cfgPath stage.
Arguments slog_Info {Event} msg.
Arguments os_Executable {Event}.
Arguments os_Environ {Event}.
Arguments Cmd_Start {Event} cmd.
Arguments select_cmdExited_After {Event} cmd d.
Arguments Process_Release {Event} cmd.
Arguments http_Get {Event} url.
Arguments Body_Close {Event} b.
Arguments Scanner_Scan {Event} s.
Arguments Scanner_Bytes {Event} s.
Arguments Scanner_Err {Event} s.
Arguments lookup {Event} input r.
Arguments selected {Event} cmd r.
Arguments spawned {Event} input exe env.
Arguments polled {Event} input cmd errs.
Arguments finished {Event} ctx resp err.

Arguments is_start {Event} ev.
Arguments is_removal {Event} ev.

(** ** The scanner on small inputs *)

Example split_line_two :
  split_line (bytes "ab" ++ [x0a] ++ bytes "cd") = Some (bytes "ab", bytes "cd").
Proof. reflexivity. Qed.

Example dropCR_crlf : dropCR (bytes "ab" ++ [x0d]) = bytes "ab".
Proof. reflexivity. Qed.

Example Scan_first_line :
  bufio_Scan small_scanner
    (scan_init {| st_data := bytes "ab" ++ [x0d; x0a] ++ bytes "cd";
                  st_end := io_EOF |})
  = (true, {| ss_rest := bytes "cd"; ss_end := io_EOF;
              ss_token := bytes "ab"; ss_stop := None |}).
Proof. reflexivity. Qed.

Example Scan_last_line :
  bufio_Scan small_scanner
    {| ss_rest := bytes "cd"; ss_end := io_err context_Canceled;
       ss_token := bytes "ab"; ss_stop := None |}
  = (true, {| ss_rest := []; ss_end := io_err context_Canceled;
              ss_token := bytes "cd"; ss_stop := None |}).
Proof. reflexivity. Qed.

Example Scan_at_end :
  bufio_Scan small_scanner
    {| ss_rest := []; ss_end := io_err context_Canceled;
       ss_token := bytes "cd"; ss_stop := None |}
  = (false, {| ss_rest := []; ss_end := io_err context_Canceled;
               ss_token := []; ss_stop := Some (Some context_Canceled) |}).
Proof. reflexivity. Qed.

Example Scan_seven_fit :
  fst (bufio_Scan small_scanner
         (scan_init {| st_data := bytes "1234567" ++ [x0a]; st_end := io_EOF |}))
  = true.
Proof. reflexivity. Qed.

Example Scan_eight_too_long :
  bufio_Scan small_scanner
    (scan_init {| st_data := bytes "12345678" ++ [x0a]; st_end := io_EOF |})
  = (false, {| ss_rest := bytes "12345678" ++ [x0a]; ss_end := io_EOF;
               ss_token := []; ss_stop := Some (Some bufio_ErrTooLong) |}).
Proof. reflexivity. Qed.

(** ** The client on concrete data *)

Lemma demo_addr_set : demo_addr <> "".
Proof. discriminate. Qed.

(** The server is registered at the first lookup, and the GET is answered
    with [ans]. *)
Lemma demo_connected ans :
  run (Connect [] braces_Unmarshal demo_ctx demo_input)
      ([lookup demo_input (demo_addr, None)] ++
       [http_Get (streamURL demo_addr) |-> ans]) None.
Proof. apply run_Connect_hit_get. exact demo_addr_set. Qed.

Lemma demo_fits line :
  ~ In x0a line -> (Z.of_nat (List.length line) < 100)%Z ->
  fits demo_scanner line.
Proof.
  intros Hn Hlen. split; [exact Hn|].
  unfold demo_scanner. rewrite streamScanner_limit. lia.
Qed.

Ltac demo_fits :=
  repeat first [apply Forall_nil | apply Forall_cons];
  try (apply demo_fits; [ cbn; intuition discriminate | cbn; lia ]).

Lemma doubled_length k l :
  Z.of_nat (List.length (doubled k l)) = (2 ^ Z.of_nat k * Z.of_nat (List.length l))%Z.
Proof.
  induction k as [|k IH].
  - change (doubled 0 l) with l. change (Z.of_nat 0) with 0%Z.
    rewrite Z.pow_0_r. lia.
  - change (doubled (S k) l) with (doubled k l ++ doubled k l).
    rewrite List.length_app, Nat2Z.inj_add, IH, Nat2Z.inj_succ.
    rewrite Z.pow_succ_r by lia. lia.
Qed.

Lemma doubled_In k l x : In x (doubled k l) -> In x l.
Proof.
  induction k as [|k IH]; [tauto|].
  change (doubled (S k) l) with (doubled k l ++ doubled k l).
  intros H. apply in_app_or in H. tauto.
Qed.

Opaque doubled.

Lemma demo_long_line_no_newline : ~ In x0a demo_long_line.
Proof.
  intros H. apply doubled_In in H. destruct H as [H|[]]. discriminate H.
Qed.

Lemma demo_long_line_length :
  (1024 * 1024 * 100 < Z.of_nat (List.length demo_long_line))%Z.
Proof. unfold demo_long_line. rewrite doubled_length. reflexivity. Qed.

(** C7 where the registry answers with [demo_addr]. *)
Lemma C7_witness :
  demo_addr <> "" /\
  run (Connect [] braces_Unmarshal demo_ctx demo_input)
      [ lookup demo_input (demo_addr, None);
        http_Get (streamURL demo_addr) |-> (demo_resp, None) ] None.
Proof.
  split; [exact demo_addr_set|].
  exact (proj1 (C7_found_address_used [] braces_Unmarshal demo_ctx demo_input
                                      demo_addr_set)
               (demo_resp, None)).
Defined.

(** C10 where the lookups fail with "permission denied": the first one ends
    [Connect]; the one in the loop, at the second turn, does not. *)
Lemma C10_witness :
  run (Connect [] braces_Unmarshal demo_ctx demo_input)
      [lookup demo_input ("", Some (errors_New "permission denied"))]
      (Some (Some (errors_New "permission denied"))) /\
  run (Connect [] braces_Unmarshal demo_ctx demo_input)
      (spawned demo_input demo_exe [] ++
       polled demo_input demo_cmd
              [None; Some (errors_New "permission denied")])
      None.
Proof.
  destruct (C10_lookup_errors [] braces_Unmarshal demo_ctx demo_input)
    as [Hfirst Hloop].
  split.
  - exact (proj1 (Hfirst "" (errors_New "permission denied"))).
  - exact (proj1 (Hloop demo_exe []
                        [None; Some (errors_New "permission denied")])).
Defined.

(** C1 after two turns of the loop: the process exits with status 1; the
    server registers and the release fails; the server registers, the
    release works and the GET is made. *)
Lemma C1_witness :
  demo_addr <> "" /\
  run (Connect [] braces_Unmarshal demo_ctx demo_input)
      ((spawned demo_input demo_exe [] ++
        polled demo_input demo_cmd
               [None; Some (errors_New "permission denied")]) ++
       [ lookup demo_input ("", None);
         selected demo_cmd (recv_cmdExited (Some (exec_ExitError 1))) ])
      (Some (Some (exec_ExitError 1))) /\
  run (Connect [] braces_Unmarshal demo_ctx demo_input)
      ((spawned demo_input demo_exe [] ++
        polled demo_input demo_cmd
               [None; Some (errors_New "permission denied")]) ++
       [ lookup demo_input (demo_addr, None);
         Process_Release demo_cmd |-> Some (errors_New "no such process") ])
      (Some (Some (errors_New "no such process"))) /\
  run (Connect [] braces_Unmarshal demo_ctx demo_input)
      ((spawned demo_input demo_exe [] ++
        polled demo_input demo_cmd
               [None; Some (errors_New "permission denied")]) ++
       [ lookup demo_input (demo_addr, None);
         Process_Release demo_cmd |-> None;
         http_Get (streamURL demo_addr) |-> (demo_resp, None) ])
      None.
Proof.
  destruct (C1_wait_for_server [] braces_Unmarshal demo_ctx demo_input
              demo_exe []
              [None; Some (errors_New "permission denied")])
    as (_ & Hexit & _ & Hrelease & _ & _ & _ & Hget).
  split; [exact demo_addr_set|]. split; [|split].
  - apply (proj2 (Hexit None (exec_ExitError 1) [] _)). auto.
  - apply (proj2 (Hrelease demo_addr None (errors_New "no such process") [] _
                           demo_addr_set)).
    auto.
  - exact (Hget demo_addr None (demo_resp, None) demo_addr_set).
Defined.

(** The claim C1 as the spec states it, at two places: when the process
    exits before anything is registered [Connect] returns an error, also
    when the process exited without failure; and when an address is
    registered it is used for the GET. *)
Lemma C1_counterexample :
  ~ (forall wait r,
        run (Connect [] braces_Unmarshal demo_ctx demo_input)
            ((spawned demo_input demo_exe [] ++
              polled demo_input demo_cmd
                     [None; Some (errors_New "permission denied")]) ++
             [lookup demo_input ("", None);
              selected demo_cmd (recv_cmdExited wait)])
            (Some r) ->
        r <> None) /\
  ~ (forall l r,
        run (Connect [] braces_Unmarshal demo_ctx demo_input)
            ((spawned demo_input demo_exe [] ++
              polled demo_input demo_cmd
                     [None; Some (errors_New "permission denied")]) ++
             lookup demo_input (demo_addr, None) :: l)
            (Some r) ->
        exists ans, In (http_Get (streamURL demo_addr) |-> ans) l).
Proof.
  split.
  - intros H. apply (H None None); [|reflexivity].
    rewrite <- app_assoc. apply run_Connect_exit_nil.
  - intros H.
    destruct (H [Process_Release demo_cmd |-> Some (errors_New "no such process")]
                (Some (errors_New "no such process")))
      as (ans & [Hin | []]).
    + unfold demo_cmd. rewrite <- app_assoc.
      rewrite run_Connect_spawned, run_wait_polled.
      rewrite run_wait_hit by exact demo_addr_set. cbn [afterWait].
      apply run_release. eexists. split; [reflexivity|]. apply run_Ret. auto.
    + discriminate Hin.
Qed.

(** C2 where the connection to the registered server is refused: the
    registration is removed, and after three such attempts [Connect] looks
    up the server again. *)
Lemma C2_witness :
  run (Connect [] braces_Unmarshal demo_ctx demo_input)
      ([lookup demo_input (demo_addr, None)] ++
       [http_Get (streamURL demo_addr) |->
          (demo_resp, Some (errors_New "connection refused"))]) None /\
  run (Connect [] braces_Unmarshal demo_ctx demo_input)
      (List.concat
         (repeat (attempt demo_input [lookup demo_input (demo_addr, None)]
                          (streamURL demo_addr) demo_resp
                          (errors_New "connection refused")) 3) ++
       [lookup demo_input (demo_addr, None)]) None.
Proof.
  pose proof (demo_connected (demo_resp, Some (errors_New "connection refused")))
    as Hpre.
  split; [exact Hpre|].
  assert (Hf : failed [] braces_Unmarshal demo_ctx demo_input
                 (attempt demo_input [lookup demo_input (demo_addr, None)]
                          (streamURL demo_addr) demo_resp
                          (errors_New "connection refused"))).
  { exists [lookup demo_input (demo_addr, None)], (streamURL demo_addr),
           demo_resp, (errors_New "connection refused").
    split; [exact Hpre | reflexivity]. }
  apply (proj2 (proj2 (C2_retry_after_failed_connection
                         [] braces_Unmarshal demo_ctx demo_input)
                      _ [lookup demo_input (demo_addr, None)] None
                      (Forall_cons _ Hf (Forall_cons _ Hf (Forall_cons _ Hf
                         (Forall_nil _)))))).
  apply (run_prefix _ [http_Get (streamURL demo_addr) |-> (demo_resp, None)]
                    (o := None)).
  exact (demo_connected (demo_resp, None)).
Defined.

(** C3 on two streams: one that the server closes after two events, and
    one that the connection drops after the first. *)
Lemma C3_witness :
  run (Connect [] braces_Unmarshal demo_ctx demo_input)
      ([lookup demo_input (demo_addr, None)] ++
       [http_Get (streamURL demo_addr) |-> (demo_resp, None)]) None /\
  run (Connect [] braces_Unmarshal demo_ctx demo_input)
      ([lookup demo_input (demo_addr, None)] ++
       (http_Get (streamURL demo_addr) |-> (demo_resp, None)) ::
       [ Scanner_Scan demo_scanner |-> true;
         Scanner_Bytes demo_scanner |-> bytes "{progress:10}";
         input_OnEvent demo_input (bytes "{progress:10}") |-> tt;
         Scanner_Scan demo_scanner |-> true;
         Scanner_Bytes demo_scanner |-> bytes "{done}";
         input_OnEvent demo_input (bytes "{done}") |-> tt;
         Scanner_Scan demo_scanner |-> false;
         Scanner_Err demo_scanner |-> None;
         Body_Close (Body demo_resp) |-> tt ])
      (Some None) /\
  run (Connect [] braces_Unmarshal demo_ctx demo_input)
      ([lookup demo_input (demo_addr, None)] ++
       (http_Get (streamURL demo_addr) |-> (demo_resp, None)) ::
       [ Scanner_Scan demo_scanner |-> true;
         Scanner_Bytes demo_scanner |-> bytes "{1}";
         input_OnEvent demo_input (bytes "{1}") |-> tt;
         Scanner_Scan demo_scanner |-> false;
         Scanner_Err demo_scanner |->
           Some (errors_New "connection reset by peer");
         Body_Close (Body demo_resp) |-> tt ])
      (Some (Some (errors_New "connection reset by peer"))).
Proof.
  assert (Hfit2 : Forall (fits demo_scanner)
                         [bytes "{progress:10}"; bytes "{done}"])
    by demo_fits.
  assert (Hfit1 : Forall (fits demo_scanner) [bytes "{1}"]) by demo_fits.
  assert (Hlast : fits demo_scanner []) by demo_fits.
  destruct (@C3_stream_end _ [] braces_Unmarshal demo_ctx demo_input
              [lookup demo_input (demo_addr, None)] (streamURL demo_addr)
              demo_resp (demo_connected (demo_resp, None)))
    as (_ & _ & Hstream).
  split; [exact (demo_connected (demo_resp, None))|]. split.
  - exact (proj1 (proj2 (proj1 (Hstream demo_two_events
                                   [bytes "{progress:10}"; bytes "{done}"] []
                                   eq_refl Hfit2 Hlast)
                               eq_refl _ _)
                        (conj eq_refl eq_refl))).
  - exact (proj1 (proj2 (proj2 (Hstream demo_reset [bytes "{1}"] []
                                   eq_refl Hfit1 Hlast)
                               _ eq_refl _ _)
                        (conj eq_refl eq_refl))).
Defined.

(** C4 on a stream with the line [{] between two events. *)
Lemma C4_witness :
  run (Connect [] braces_Unmarshal demo_ctx demo_input)
      ([lookup demo_input (demo_addr, None)] ++
       [http_Get (streamURL demo_addr) |-> (demo_resp, None)]) None /\
  snd (braces_Unmarshal (dropCR (bytes "{")) []) <> None /\
  run (Connect [] braces_Unmarshal demo_ctx demo_input)
      ([lookup demo_input (demo_addr, None)] ++
       (http_Get (streamURL demo_addr) |-> (demo_resp, None)) ::
       [ Scanner_Scan demo_scanner |-> true;
         Scanner_Bytes demo_scanner |-> bytes "{1}";
         input_OnEvent demo_input (bytes "{1}") |-> tt;
         Scanner_Scan demo_scanner |-> true;
         Scanner_Bytes demo_scanner |-> bytes "{";
         Scanner_Scan demo_scanner |-> true;
         Scanner_Bytes demo_scanner |-> bytes "{2}";
         input_OnEvent demo_input (bytes "{2}") |-> tt;
         Scanner_Scan demo_scanner |-> false;
         Scanner_Err demo_scanner |-> None;
         Body_Close (Body demo_resp) |-> tt ])
      (Some None).
Proof.
  assert (Hbad : snd (braces_Unmarshal (dropCR (bytes "{")) []) <> None)
    by discriminate.
  assert (Hfit : Forall (fits demo_scanner)
                        ([bytes "{1}"] ++ bytes "{" :: [bytes "{2}"]))
    by demo_fits.
  assert (Hlast : fits demo_scanner []) by demo_fits.
  split; [exact (demo_connected (demo_resp, None))|]. split; [exact Hbad|].
  exact (proj1 (proj2 (proj1 (@C4_malformed_line_skipped
            _ [] braces_Unmarshal demo_ctx demo_input
            [lookup demo_input (demo_addr, None)] (streamURL demo_addr)
            demo_resp demo_cut_off [bytes "{1}"] (bytes "{") [bytes "{2}"] []
            (demo_connected (demo_resp, None)) eq_refl Hfit Hlast Hbad) _ _)
          (conj eq_refl eq_refl))).
Defined.

(** C5 on a stream whose second line has 2^27 bytes. *)
Lemma C5_witness :
  run (Connect [] braces_Unmarshal demo_ctx demo_input)
      ([lookup demo_input (demo_addr, None)] ++
       [http_Get (streamURL demo_addr) |-> (demo_resp, None)]) None /\
  ~ In x0a demo_long_line /\
  (1024 * 1024 * 100 < Z.of_nat (List.length demo_long_line))%Z /\
  run (Connect [] braces_Unmarshal demo_ctx demo_input)
      ([lookup demo_input (demo_addr, None)] ++
       (http_Get (streamURL demo_addr) |-> (demo_resp, None)) ::
       [ Scanner_Scan demo_scanner |-> true;
         Scanner_Bytes demo_scanner |-> bytes "{1}";
         input_OnEvent demo_input (bytes "{1}") |-> tt;
         Scanner_Scan demo_scanner |-> false;
         Scanner_Err demo_scanner |-> Some bufio_ErrTooLong;
         Body_Close (Body demo_resp) |-> tt ])
      (Some (Some bufio_ErrTooLong)).
Proof.
  assert (Hfit : Forall (fits demo_scanner) [bytes "{1}"]) by demo_fits.
  split; [exact (demo_connected (demo_resp, None))|].
  split; [exact demo_long_line_no_newline|].
  split; [exact demo_long_line_length|].
  exact (proj1 (proj2 (proj1 (@C5_oversized_line
            _ [] braces_Unmarshal demo_ctx demo_input
            [lookup demo_input (demo_addr, None)] (streamURL demo_addr)
            demo_resp demo_too_long [bytes "{1}"] demo_long_line
            (x0a :: bytes "{2}")
            (demo_connected (demo_resp, None)) eq_refl
            Hfit demo_long_line_no_newline demo_long_line_length)
            _ _)
          (conj eq_refl eq_refl))).
Defined.

(** C6 on the stream of two events. *)
Lemma C6_witness :
  run (Connect [] braces_Unmarshal demo_ctx demo_input)
      ([lookup demo_input (demo_addr, None)] ++
       [http_Get (streamURL demo_addr) |-> (demo_resp, None)]) None /\
  run (Connect [] braces_Unmarshal demo_ctx demo_input)
      ([lookup demo_input (demo_addr, None)] ++
       (http_Get (streamURL demo_addr) |-> (demo_resp, None)) ::
       [ Scanner_Scan demo_scanner |-> true;
         Scanner_Bytes demo_scanner |-> bytes "{progress:10}";
         input_OnEvent demo_input (bytes "{progress:10}") |-> tt;
         Scanner_Scan demo_scanner |-> true;
         Scanner_Bytes demo_scanner |-> bytes "{done}";
         input_OnEvent demo_input (bytes "{done}") |-> tt;
         Scanner_Scan demo_scanner |-> false;
         Scanner_Err demo_scanner |-> None;
         Body_Close (Body demo_resp) |-> tt ])
      (Some None).
Proof.
  assert (Hfit : Forall (fits demo_scanner)
                        [bytes "{progress:10}"; bytes "{done}"])
    by demo_fits.
  assert (Hdec : Forall2 (fun line event =>
                            braces_Unmarshal (dropCR line) [] = (event, None))
                         [bytes "{progress:10}"; bytes "{done}"]
                         [bytes "{progress:10}"; bytes "{done}"])
    by (repeat constructor).
  split; [exact (demo_connected (demo_resp, None))|].
  exact (proj1 (proj2 (proj1 (@C6_events_delivered
            _ [] braces_Unmarshal demo_ctx demo_input
            [lookup demo_input (demo_addr, None)] (streamURL demo_addr)
            demo_resp demo_two_events _ _
            (demo_connected (demo_resp, None)) eq_refl eq_refl Hfit Hdec) _ _)
          (conj eq_refl eq_refl))).
Defined.



(** ** More executions on the concrete data *)

(** The GET fails and the registration is removed. *)
Lemma demo_removed :
  run (Connect [] braces_Unmarshal demo_ctx demo_input)
      ([ lookup demo_input (demo_addr, None);
         http_Get (streamURL demo_addr) |->
           (demo_resp, Some (errors_New "connection refused")) ] ++
       [cleanupExisting (CfgPath demo_input) (Stage demo_input) |-> tt])
      None.
Proof.
  apply (@run_Connect_get _ [] braces_Unmarshal demo_ctx demo_input
           [lookup demo_input (demo_addr, None)] _ _ _
           (demo_connected (demo_resp, Some (errors_New "connection refused")))).
  apply run_call_same. apply run_nil.
Qed.

(** Nothing is registered and the process is started. *)
Lemma demo_spawned :
  run (Connect [] braces_Unmarshal demo_ctx demo_input)
      ([ lookup demo_input ("", None);
         slog_Info "no existing server found, starting new one" |-> tt;
         os_Executable |-> (demo_exe, None);
         os_Environ |-> [] ] ++
       [Cmd_Start demo_cmd |-> None])
      None.
Proof.
  apply (run_prefix _ [slog_Info "waiting for server to start" |-> tt]
                    (o := None)).
  rewrite <- app_assoc. cbn [app].
  apply (proj2 (@run_Connect_spawned _ [] braces_Unmarshal demo_ctx demo_input
                  demo_exe [] [] None)).
  apply run_wait_nil. reflexivity.
Qed.

(** The server registers at the first turn of the loop and the process is
    released. *)
Lemma demo_released :
  run (Connect [] braces_Unmarshal demo_ctx demo_input)
      ((spawned demo_input demo_exe [] ++ [lookup demo_input (demo_addr, None)]) ++
       [Process_Release demo_cmd |-> None])
      None.
Proof.
  rewrite <- app_assoc. cbn [app].
  apply (proj2 (@run_Connect_spawned _ [] braces_Unmarshal demo_ctx demo_input
                  demo_exe [] _ None)).
  rewrite run_wait_hit by exact demo_addr_set. cbn [afterWait].
  apply run_release. eexists. split; [reflexivity|].
  apply run_attach_nil. reflexivity.
Qed.

(** One line is read and handed over, then the server closes the stream. *)
Lemma demo_one_line :
  run (Connect [] braces_Unmarshal demo_ctx demo_input)
      ([lookup demo_input (demo_addr, None)] ++
       (http_Get (streamURL demo_addr) |-> (demo_resp, None)) ::
       [ Scanner_Scan demo_scanner |-> true;
         Scanner_Bytes demo_scanner |-> bytes "{1}";
         input_OnEvent demo_input (bytes "{1}") |-> tt;
         Scanner_Scan demo_scanner |-> false;
         Scanner_Err demo_scanner |-> None;
         Body_Close (Body demo_resp) |-> tt ])
      (Some None).
Proof.
  apply (@run_Connect_get _ [] braces_Unmarshal demo_ctx demo_input
           _ _ _ _ (demo_connected (demo_resp, None))).
  apply readStream_complete. exists [bytes "{1}"]. reflexivity.
Qed.

(** X1 where [os.Executable] reports that the file is gone. *)
Lemma X1_witness :
  run (Connect [] braces_Unmarshal demo_ctx demo_input)
      [ lookup demo_input ("", None);
        slog_Info "no existing server found, starting new one" |-> tt;
        os_Executable |-> ("", Some (errors_New "no such file or directory")) ]
      (Some (Some (errors_New "no such file or directory"))).
Proof.
  apply (proj2 (proj1 (X1_start_errors_returned
                         [] braces_Unmarshal demo_ctx demo_input)
                      "" (errors_New "no such file or directory") [] _)).
  auto.
Defined.

(** X2 where the process exits with status 0 at the first turn. *)
Lemma X2_witness :
  run (Connect [] braces_Unmarshal demo_ctx demo_input)
      ((spawned demo_input demo_exe [] ++ polled demo_input demo_cmd []) ++
       [ lookup demo_input ("", None);
         selected demo_cmd (recv_cmdExited None) ])
      (Some None).
Proof.
  apply (proj2 (proj1 (X2_after_the_select
                         [] braces_Unmarshal demo_ctx demo_input
                         demo_exe [] [] None)
                      None [] _)).
  auto.
Defined.

(** X3 where the first lookup fails. *)
Lemma X3_witness :
  @gave_up (list byte) demo_input
          [lookup demo_input ("", Some (errors_New "permission denied"))]
          (Some (errors_New "permission denied")) /\
  run (Connect [] braces_Unmarshal demo_ctx demo_input)
      [lookup demo_input ("", Some (errors_New "permission denied"))]
      (Some (Some (errors_New "permission denied"))).
Proof.
  assert (Hg : @gave_up (list byte) demo_input
                 [lookup demo_input ("", Some (errors_New "permission denied"))]
                 (Some (errors_New "permission denied"))).
  { left. exists "", (errors_New "permission denied"). auto. }
  split; [exact Hg|].
  exact (proj1 (proj2 (@X3_returns_without_a_get
                         _ [] braces_Unmarshal demo_ctx demo_input _ _) Hg)).
Defined.

(** X4 on the execution that reads one line. *)
Lemma X4_witness :
  run (Connect [] braces_Unmarshal demo_ctx demo_input)
      ([lookup demo_input (demo_addr, None)] ++
       (http_Get (streamURL demo_addr) |-> (demo_resp, None)) ::
       [ Scanner_Scan demo_scanner |-> true;
         Scanner_Bytes demo_scanner |-> bytes "{1}";
         input_OnEvent demo_input (bytes "{1}") |-> tt;
         Scanner_Scan demo_scanner |-> false;
         Scanner_Err demo_scanner |-> None;
         Body_Close (Body demo_resp) |-> tt ])
      (Some None) /\
  ((exists (l0 : list (event (connectE (list byte)))) last,
       [lookup demo_input (demo_addr, None)] ++
       (http_Get (streamURL demo_addr) |-> (demo_resp, None)) ::
       [ Scanner_Scan demo_scanner |-> true;
         Scanner_Bytes demo_scanner |-> bytes "{1}";
         input_OnEvent demo_input (bytes "{1}") |-> tt;
         Scanner_Scan demo_scanner |-> false;
         Scanner_Err demo_scanner |-> None;
         Body_Close (Body demo_resp) |-> tt ] = l0 ++ last /\
       @gave_up (list byte) demo_input last None) \/
   (exists l0 url resp lines,
       [lookup demo_input (demo_addr, None)] ++
       (http_Get (streamURL demo_addr) |-> (demo_resp, None)) ::
       [ Scanner_Scan demo_scanner |-> true;
         Scanner_Bytes demo_scanner |-> bytes "{1}";
         input_OnEvent demo_input (bytes "{1}") |-> tt;
         Scanner_Scan demo_scanner |-> false;
         Scanner_Err demo_scanner |-> None;
         Body_Close (Body demo_resp) |-> tt ] =
       l0 ++ (http_Get url |-> (resp, None)) ::
       flat_map (scanned [] braces_Unmarshal demo_input
                         (streamScanner demo_ctx resp)) lines ++
       finished demo_ctx resp None)).
Proof.
  split; [exact demo_one_line|].
  exact (@X4_where_the_result_comes_from
           _ [] braces_Unmarshal demo_ctx demo_input _ _ demo_one_line).
Defined.

(** X5 where the GET fails, the registration is removed and nothing is
    registered at the next lookup. *)
Lemma X5_witness :
  run (Connect [] braces_Unmarshal demo_ctx demo_input)
      ([ lookup demo_input (demo_addr, None);
         http_Get (streamURL demo_addr) |->
           (demo_resp, Some (errors_New "connection refused")) ] ++
       [cleanupExisting (CfgPath demo_input) (Stage demo_input) |-> tt])
      None /\
  ((@count (list byte) is_start
          ([ lookup demo_input (demo_addr, None);
             http_Get (streamURL demo_addr) |->
               (demo_resp, Some (errors_New "connection refused")) ] ++
           [cleanupExisting (CfgPath demo_input) (Stage demo_input) |-> tt]) <=
    1 + @count (list byte) is_removal
          ([ lookup demo_input (demo_addr, None);
             http_Get (streamURL demo_addr) |->
               (demo_resp, Some (errors_New "connection refused")) ] ++
           [cleanupExisting (CfgPath demo_input) (Stage demo_input) |-> tt]))%nat).
Proof.
  split; [exact demo_removed|].
  exact (@X5_starts_bounded_by_removals
           _ [] braces_Unmarshal demo_ctx demo_input _ _ demo_removed).
Defined.

(** X6 on the stream that breaks off inside its second line. *)
Lemma X6_witness :
  run (Connect [] braces_Unmarshal demo_ctx demo_input)
      ([lookup demo_input (demo_addr, None)] ++
       (http_Get (streamURL demo_addr) |-> (demo_resp, None)) ::
       [ Scanner_Scan demo_scanner |-> true;
         Scanner_Bytes demo_scanner |-> bytes "{1}";
         input_OnEvent demo_input (bytes "{1}") |-> tt;
         Scanner_Scan demo_scanner |-> true;
         Scanner_Bytes demo_scanner |-> bytes "{2}";
         input_OnEvent demo_input (bytes "{2}") |-> tt;
         Scanner_Scan demo_scanner |-> false;
         Scanner_Err demo_scanner |-> Some context_Canceled;
         Body_Close (Body demo_resp) |-> tt ])
      (Some (Some context_Canceled)).
Proof.
  assert (Hfit : Forall (fits demo_scanner) [bytes "{1}"]) by demo_fits.
  assert (Hlast : fits demo_scanner (bytes "{2}")) by demo_fits.
  assert (Hdec : Forall2 (fun line event =>
                            braces_Unmarshal (dropCR line) [] = (event, None))
                         ([bytes "{1}"] ++ final (bytes "{2}"))
                         [bytes "{1}"; bytes "{2}"])
    by (repeat constructor).
  exact (proj1 (proj2 (proj1 (@X6_events_before_a_fault
            _ [] braces_Unmarshal demo_ctx demo_input
            [lookup demo_input (demo_addr, None)] (streamURL demo_addr)
            demo_resp demo_broken [bytes "{1}"] (bytes "{2}") _ context_Canceled
            (demo_connected (demo_resp, None)) eq_refl eq_refl
            Hfit Hlast Hdec) _ _)
          (conj eq_refl eq_refl))).
Defined.

(** X7 where the GET fails and the registration is removed. *)
Lemma X7_witness :
  run (Connect [] braces_Unmarshal demo_ctx demo_input)
      ([ lookup demo_input (demo_addr, None);
         http_Get (streamURL demo_addr) |->
           (demo_resp, Some (errors_New "connection refused")) ] ++
       [cleanupExisting (CfgPath demo_input) (Stage demo_input) |-> tt])
      None /\
  (CfgPath demo_input = CfgPath demo_input /\
   Stage demo_input = Stage demo_input /\
   exists (l0 : list (event (connectE (list byte)))) url resp e,
     [ lookup demo_input (demo_addr, None);
       http_Get (streamURL demo_addr) |->
         (demo_resp, Some (errors_New "connection refused")) ] =
     l0 ++ [http_Get url |-> (resp, Some e)]).
Proof.
  split; [exact demo_removed|].
  exact (@X7_removal_only_after_failed_get
           _ [] braces_Unmarshal demo_ctx demo_input _ _ _ _ _ demo_removed).
Defined.

(** X8 where nothing is registered and the process is started. *)
Lemma X8_witness :
  run (Connect [] braces_Unmarshal demo_ctx demo_input)
      ([ lookup demo_input ("", None);
         slog_Info "no existing server found, starting new one" |-> tt;
         os_Executable |-> (demo_exe, None);
         os_Environ |-> [] ] ++
       [Cmd_Start demo_cmd |-> None])
      None /\
  (exists (l0 : list (event (connectE (list byte)))) exe env,
     [ lookup demo_input ("", None);
       slog_Info "no existing server found, starting new one" |-> tt;
       os_Executable |-> (demo_exe, None);
       os_Environ |-> [] ] =
     l0 ++
     [ lookup demo_input ("", None);
       slog_Info "no existing server found, starting new one" |-> tt;
       os_Executable |-> (exe, None);
       os_Environ |-> env ] /\
     Path demo_cmd = exe /\
     Args demo_cmd = [exe; ("--stage=" ++ Stage demo_input)%string; "server"] /\
     Env demo_cmd = env /\
     Stdout demo_cmd = Some os_Stdout /\ Stderr demo_cmd = Some os_Stderr).
Proof.
  split; [exact demo_spawned|].
  exact (@X8_what_is_started
           _ [] braces_Unmarshal demo_ctx demo_input _ _ _ _ _ demo_spawned).
Defined.

(** X9 on the execution that reads one line. *)
Lemma X9_witness :
  run (Connect [] braces_Unmarshal demo_ctx demo_input)
      ([lookup demo_input (demo_addr, None)] ++
       (http_Get (streamURL demo_addr) |-> (demo_resp, None)) ::
       [ Scanner_Scan demo_scanner |-> true;
         Scanner_Bytes demo_scanner |-> bytes "{1}";
         input_OnEvent demo_input (bytes "{1}") |-> tt;
         Scanner_Scan demo_scanner |-> false;
         Scanner_Err demo_scanner |-> None;
         Body_Close (Body demo_resp) |-> tt ])
      (Some None) /\
  (demo_input = demo_input /\
   exists (l0 : list (event (connectE (list byte)))) sc line,
     [ lookup demo_input (demo_addr, None);
       http_Get (streamURL demo_addr) |-> (demo_resp, None);
       Scanner_Scan demo_scanner |-> true;
       Scanner_Bytes demo_scanner |-> bytes "{1}" ] =
     l0 ++ [Scanner_Scan sc |-> true; Scanner_Bytes sc |-> line] /\
     braces_Unmarshal line [] = (bytes "{1}", None)).
Proof.
  split; [exact demo_one_line|].
  exact (@X9_handler_gets_decoded_line
           _ [] braces_Unmarshal demo_ctx demo_input
           [ lookup demo_input (demo_addr, None);
             http_Get (streamURL demo_addr) |-> (demo_resp, None);
             Scanner_Scan demo_scanner |-> true;
             Scanner_Bytes demo_scanner |-> bytes "{1}" ]
           demo_input (bytes "{1}") _ _ demo_one_line).
Defined.

(** X10 where the address comes from the lookup of the loop. *)
Lemma X10_witness :
  exists addr (l0 : list (event (connectE (list byte)))),
    addr <> "" /\ streamURL demo_addr = streamURL addr /\
    ((spawned demo_input demo_exe [] ++ [lookup demo_input (demo_addr, None)]) ++
     [Process_Release demo_cmd |-> None] =
     l0 ++ [lookup demo_input (addr, None)] \/
     exists cmd err,
       (spawned demo_input demo_exe [] ++ [lookup demo_input (demo_addr, None)]) ++
       [Process_Release demo_cmd |-> None] =
       l0 ++ [lookup demo_input (addr, err); Process_Release cmd |-> None]).
Proof.
  assert (Hrun : run (Connect [] braces_Unmarshal demo_ctx demo_input)
                   (((spawned demo_input demo_exe [] ++
                      [lookup demo_input (demo_addr, None)]) ++
                     [Process_Release demo_cmd |-> None]) ++
                    [http_Get (streamURL demo_addr) |-> (demo_resp, None)])
                   None).
  { rewrite <- !app_assoc. cbn [app].
    apply (proj2 (@run_Connect_spawned _ [] braces_Unmarshal demo_ctx demo_input
                    demo_exe [] _ None)).
    rewrite run_wait_hit by exact demo_addr_set. cbn [afterWait].
    apply run_release. eexists. split; [reflexivity|].
    apply run_attach. exists demo_resp, None. split; [reflexivity|].
    apply run_nil. }
  exact (@X10_get_goes_to_registered_address
           _ [] braces_Unmarshal demo_ctx demo_input _ _ _ _ _ Hrun).
Defined.

(** X11 where the server registers at the first turn of the loop. *)
Lemma X11_witness :
  run (Connect [] braces_Unmarshal demo_ctx demo_input)
      ((spawned demo_input demo_exe [] ++ [lookup demo_input (demo_addr, None)]) ++
       [Process_Release demo_cmd |-> None])
      None /\
  (exists (l0 : list (event (connectE (list byte)))) addr err,
     addr <> "" /\
     spawned demo_input demo_exe [] ++ [lookup demo_input (demo_addr, None)] =
     l0 ++ [lookup demo_input (addr, err)]).
Proof.
  split; [exact demo_released|].
  exact (proj1 (X11_release_and_wait_follow_lookup
                  [] braces_Unmarshal demo_ctx demo_input)
               _ _ _ _ _ demo_released).
Defined.

(** X12 on the execution that reads one line: the call of [Bytes]. *)
Lemma X12_witness :
  run (Connect [] braces_Unmarshal demo_ctx demo_input)
      ([lookup demo_input (demo_addr, None)] ++
       (http_Get (streamURL demo_addr) |-> (demo_resp, None)) ::
       [ Scanner_Scan demo_scanner |-> true;
         Scanner_Bytes demo_scanner |-> bytes "{1}";
         input_OnEvent demo_input (bytes "{1}") |-> tt;
         Scanner_Scan demo_scanner |-> false;
         Scanner_Err demo_scanner |-> None;
         Body_Close (Body demo_resp) |-> tt ])
      (Some None) /\
  (exists (l0 : list (event (connectE (list byte)))),
     [ lookup demo_input (demo_addr, None);
       http_Get (streamURL demo_addr) |-> (demo_resp, None);
       Scanner_Scan demo_scanner |-> true ] =
     l0 ++ [Scanner_Scan demo_scanner |-> true]).
Proof.
  split; [exact demo_one_line|].
  exact (proj1 (X12_scanner_calls_in_order
                  [] braces_Unmarshal demo_ctx demo_input)
               [ lookup demo_input (demo_addr, None);
                 http_Get (streamURL demo_addr) |-> (demo_resp, None);
                 Scanner_Scan demo_scanner |-> true ]
               demo_scanner (bytes "{1}") _ _ demo_one_line).
Defined.

(** X13 on the execution that reads one line. *)
Lemma X13_witness :
  run (Connect [] braces_Unmarshal demo_ctx demo_input)
      ([lookup demo_input (demo_addr, None)] ++
       (http_Get (streamURL demo_addr) |-> (demo_resp, None)) ::
       [ Scanner_Scan demo_scanner |-> true;
         Scanner_Bytes demo_scanner |-> bytes "{1}";
         input_OnEvent demo_input (bytes "{1}") |-> tt;
         Scanner_Scan demo_scanner |-> false;
         Scanner_Err demo_scanner |-> None;
         Body_Close (Body demo_resp) |-> tt ])
      (Some None) /\
  (handled
     ([lookup demo_input (demo_addr, None)] ++
      (http_Get (streamURL demo_addr) |-> (demo_resp, None)) ::
      [ Scanner_Scan demo_scanner |-> true;
        Scanner_Bytes demo_scanner |-> bytes "{1}";
        input_OnEvent demo_input (bytes "{1}") |-> tt;
        Scanner_Scan demo_scanner |-> false;
        Scanner_Err demo_scanner |-> None;
        Body_Close (Body demo_resp) |-> tt ]) =
   flat_map (decodes [] braces_Unmarshal) [bytes "{1}"]).
Proof.
  split; [exact demo_one_line|].
  exact (@X13_handler_gets_every_decoded_line
           _ [] braces_Unmarshal demo_ctx demo_input _ _ demo_one_line).
Defined.

(** X14 at the first lookup. *)
Lemma X14_witness :
  CfgPath demo_input = CfgPath demo_input /\
  Stage demo_input = Stage demo_input.
Proof.
  exact (@X14_lookups_use_the_input
           _ [] braces_Unmarshal demo_ctx demo_input
           [] _ _ (demo_addr, None)
           [http_Get (streamURL demo_addr) |-> (demo_resp, None)] None
           (demo_connected (demo_resp, None))).
Defined.
